(** * ska: the scaffold graph and its n-way merge ([graph/graph.go])

    A shallow embedding of package [graph]: the node store, the
    [SkaffoldNode] methods of [DirectoryNode] and [FileNode], and [Union].

    Go nodes are heap objects reached through pointers and [Union] mutates
    them in place, so the embedding threads an explicit store: a [heap] is
    the list of allocated nodes and a pointer is an index into it.  An index
    outside the store plays the role of Go's [nil]: every access through it
    panics.  [Union] is recursive on a possibly cyclic object graph, so it
    takes a recursion budget and reports [OutOfFuel] when it is used up. *)

From Stdlib Require Import String Ascii List ZArith Lia.
From Stdlib.Strings Require Import Byte.
From stdpp Require Import base option list strings.

Local Open Scope string_scope.
Local Open Scope list_scope.
Local Open Scope stdpp_scope.

(** ** Constants and plain types *)

Abbreviation ptr := nat (only parsing).

Abbreviation CollisionAction := string (only parsing).
Abbreviation LinkType := string (only parsing).

Definition NODETYPE_DIRECTORY : string := "DIRECTORY".
Definition NODETYPE_FILE : string := "FILE".

Definition ErrorOnCollision : CollisionAction := "ERROR".
Definition OverwriteOnCollision : CollisionAction := "OVERWRITE".
Definition YieldOnCollision : CollisionAction := "YIELD".
Definition DefaultOnCollision : CollisionAction := "DEFAULT".

Definition RegularLink : LinkType := "REGULAR".

Definition FILEACTION_COPY : string := "COPY".
Definition FILEACTION_TEMPLATE : string := "TEMPLATE".

(** ** Nodes and the store *)

Record SkaffoldLink := mkLink {
  Target : ptr;
  Kind : LinkType;      (* field [LinkType] of the Go struct *)
  Name : string
}.

Module DirectoryNode.
Record t := mk {
  name : string;
  children : list SkaffoldLink;
  parent : option ptr
}.
End DirectoryNode.

Module FileNode.
Record t := mk {
  name : string;
  action : string;
  datahash : list byte;          (* nil slice = [[]] *)
  content_type : string;
  parent : option ptr
}.
End FileNode.

Inductive Node :=
| Dir (d : DirectoryNode.t)
| File (f : FileNode.t).

Abbreviation heap := (list Node) (only parsing).

Record MergeOptions := mkOpts { DefaultCollisionAction : CollisionAction }.

(** ** Errors ([fmt.Errorf] values) and call outcomes *)

Inductive error :=
| ErrNoParent (name : string)
| ErrCannotAddChild (name : string)
| ErrInvalidAction (action name : string)
| ErrMismatchedRoots (nkey ckey : string)
| ErrMergingChildren (e : error)          (* %w wrapping *)
| ErrMergingExternalChildren (e : error). (* %w wrapping *)

Fixpoint Error (e : error) : string :=
  match e with
  | ErrNoParent n => "node " +:+ n +:+ " has no parent"
  | ErrCannotAddChild n => "cannot add child to a file node " +:+ n
  | ErrInvalidAction a n => "invalid action " +:+ a +:+ " for file " +:+ n
  | ErrMismatchedRoots nk ck =>
      "mismatched roots: " +:+ nk +:+ " does not match " +:+ ck
  | ErrMergingChildren e' => "error merging children: " +:+ Error e'
  | ErrMergingExternalChildren e' =>
      "error merging external children: " +:+ Error e'
  end.

Inductive outcome (A : Type) :=
| Ok (a : A)
| Err (e : error)
| Panic
| OutOfFuel.
Arguments Ok {A} a.
Arguments Err {A} e.
Arguments Panic {A}.
Arguments OutOfFuel {A}.

(** ** Constructors: allocation at the end of the store *)

Definition HasSuffix (s suffix : string) : bool :=
  let n := String.length s in
  let m := String.length suffix in
  (m <=? n)%nat && String.eqb (String.substring (n - m) m s) suffix.

Definition NewDirectoryNode (h : heap) (name : string) : heap * ptr :=
  (h ++ [Dir (DirectoryNode.mk name [] None)], length h).

Definition NewDirectoryNodeWithParent (h : heap) (name : string) (parent : ptr)
  : heap * ptr :=
  (h ++ [Dir (DirectoryNode.mk name [] (Some parent))], length h).

Definition NewFileNode (h : heap) (name : string) : heap * ptr :=
  let action :=
    if HasSuffix name ".tmpl" then FILEACTION_TEMPLATE else FILEACTION_COPY in
  (h ++ [File (FileNode.mk name action [] "" None)], length h).

Definition NewFileNodeWithParent (h : heap) (name : string) (parent : ptr)
  : heap * ptr :=
  let action :=
    if HasSuffix name ".tmpl" then FILEACTION_TEMPLATE else FILEACTION_COPY in
  (h ++ [File (FileNode.mk name action [] "" (Some parent))], length h).

(** ** The [SkaffoldNode] interface *)

(** The two [CollisionAction] methods ignore their receiver. *)
Definition CollisionAction_of (n : Node) : CollisionAction :=
  match n with
  | Dir _ => DefaultOnCollision
  | File _ => DefaultOnCollision
  end.

Definition Type_of (n : Node) : string :=
  match n with
  | Dir _ => NODETYPE_DIRECTORY
  | File _ => NODETYPE_FILE
  end.

Definition Key_of (n : Node) : string :=
  match n with
  | Dir d => DirectoryNode.name d
  | File f => FileNode.name f
  end.

Definition Children_of (n : Node) : list ptr :=
  match n with
  | Dir d => map Target (DirectoryNode.children d)
  | File _ => []
  end.

(** Method calls through a pointer; [None] is the nil-dereference panic. *)
Definition Key (h : heap) (p : ptr) : option string := Key_of <$> h !! p.
Definition NodeType (h : heap) (p : ptr) : option string := Type_of <$> h !! p.
Definition Children (h : heap) (p : ptr) : option (list ptr) :=
  Children_of <$> h !! p.
Definition CollisionActionAt (h : heap) (p : ptr) : option CollisionAction :=
  CollisionAction_of <$> h !! p.

Definition AddChild (h : heap) (p child : ptr) : heap * outcome unit :=
  match h !! p with
  | Some (Dir d) =>
      match Key h child with
      | Some k =>
          let link := mkLink child RegularLink k in
          (<[p := Dir (DirectoryNode.mk (DirectoryNode.name d)
                         (DirectoryNode.children d ++ [link])
                         (DirectoryNode.parent d))]> h, Ok tt)
      | None => (h, Panic)
      end
  | Some (File f) => (h, Err (ErrCannotAddChild (FileNode.name f)))
  | None => (h, Panic)
  end.

Definition Parent (h : heap) (p : ptr) : outcome ptr :=
  match h !! p with
  | Some (Dir d) =>
      match DirectoryNode.parent d with
      | Some q => Ok q
      | None => Err (ErrNoParent (DirectoryNode.name d))
      end
  | Some (File f) =>
      match FileNode.parent f with
      | Some q => Ok q
      | None => Err (ErrNoParent (FileNode.name f))
      end
  | None => Panic
  end.

(** [parent = None] is the nil interface value. *)
Definition SetParent (h : heap) (p : ptr) (parent : option ptr)
  : heap * outcome unit :=
  match h !! p with
  | Some (Dir d) =>
      (<[p := Dir (DirectoryNode.mk (DirectoryNode.name d)
                     (DirectoryNode.children d) parent)]> h, Ok tt)
  | Some (File f) =>
      (<[p := File (FileNode.mk (FileNode.name f) (FileNode.action f)
                      (FileNode.datahash f) (FileNode.content_type f)
                      parent)]> h, Ok tt)
  | None => (h, Panic)
  end.

(** ** Methods of [*FileNode] only.  A receiver that is not a file node
    cannot be passed in Go; the embedding answers [Panic] there. *)

Definition Action (h : heap) (p : ptr) : option string :=
  match h !! p with
  | Some (File f) => Some (FileNode.action f)
  | _ => None
  end.

Definition ContentType (h : heap) (p : ptr) : option string :=
  match h !! p with
  | Some (File f) => Some (FileNode.content_type f)
  | _ => None
  end.

Definition DataHash (h : heap) (p : ptr) : option (list byte) :=
  match h !! p with
  | Some (File f) => Some (FileNode.datahash f)
  | _ => None
  end.

Definition SetAction (h : heap) (p : ptr) (action : string)
  : heap * outcome unit :=
  match h !! p with
  | Some (File f) =>
      if negb (String.eqb action FILEACTION_COPY)
         && negb (String.eqb action FILEACTION_TEMPLATE)
      then (h, Err (ErrInvalidAction action (FileNode.name f)))
      else (<[p := File (FileNode.mk (FileNode.name f) action
                           (FileNode.datahash f) (FileNode.content_type f)
                           (FileNode.parent f))]> h, Ok tt)
  | _ => (h, Panic)
  end.

Section Content.
(** [crypto/md5] and [h2non/filetype] are outside the repository: the
    digest and the sniffer are parameters.  [filetype_Match src = None]
    stands for [filetype.Unknown], [Some mime] for a kind whose
    [MIME.Value] is [mime]. *)
Variable md5_Sum : list byte → list byte.
Variable filetype_Match : list byte → option string.

Definition SetContent (h : heap) (p : ptr) (src : list byte)
  : heap * outcome unit :=
  if (length src =? 0)%nat then (h, Ok tt)
  else
    match h !! p with
    | Some (File f) =>
        let content_type :=
          match filetype_Match src with
          | Some mime => mime
          | None => FileNode.content_type f
          end in
        (<[p := File (FileNode.mk (FileNode.name f) (FileNode.action f)
                        (md5_Sum src) content_type (FileNode.parent f))]> h,
         Ok tt)
    | _ => (h, Panic)
    end.
End Content.

(** ** Union *)

Inductive root_check :=
| RootsMatch
| RootsMismatch (nkey ckey : string)
| RootsPanic.

(** The first loop of [Union]: compare every overlay root key with the
    control root key, stopping at the first difference. *)
Fixpoint check_roots (h : heap) (control : ptr) (add : list ptr) : root_check :=
  match add with
  | [] => RootsMatch
  | n :: add' =>
      match Key h n, Key h control with
      | Some nk, Some ck =>
          if negb (String.eqb nk ck) then RootsMismatch nk ck
          else check_roots h control add'
      | _, _ => RootsPanic
      end
  end.

(** Inner loop over the children of one overlay. *)
Fixpoint keep_matching (h : heap) (k : string) (cs : list ptr)
  : option (list ptr) :=
  match cs with
  | [] => Some []
  | child :: cs' =>
      ck ← Key h child;
      m ← keep_matching h k cs';
      Some (if String.eqb ck k then child :: m else m)
  end.

(** Loop over the overlays that fills [matchingChildrenFromAdd]. *)
Fixpoint matchingChildrenFromAdd (h : heap) (add : list ptr) (k : string)
  : option (list ptr) :=
  match add with
  | [] => Some []
  | n_graph :: add' =>
      cs ← Children h n_graph;
      m ← keep_matching h k cs;
      ms ← matchingChildrenFromAdd h add' k;
      Some (m ++ ms)
  end.

(** [slices.Contains] on strings. *)
Definition slices_Contains (s : list string) (v : string) : bool :=
  existsb (String.eqb v) s.

(** The loop over [control.Children()]; [rec] is the recursive call. *)
Fixpoint merge_children (rec : heap → ptr → list ptr → heap * outcome ptr)
    (h : heap) (add : list ptr) (mergedKeys : list string) (cs : list ptr)
  : heap * outcome (list string) :=
  match cs with
  | [] => (h, Ok mergedKeys)
  | c :: cs' =>
      match Key h c with
      | None => (h, Panic)
      | Some k =>
          let mergedKeys := mergedKeys ++ [k] in
          match matchingChildrenFromAdd h add k with
          | None => (h, Panic)
          | Some matching =>
              match rec h c matching with
              | (h1, Ok _) => merge_children rec h1 add mergedKeys cs'
              | (h1, Err e) => (h1, Err (ErrMergingChildren e))
              | (h1, Panic) => (h1, Panic)
              | (h1, OutOfFuel) => (h1, OutOfFuel)
              end
          end
      end
  end.

(** The last loop: append the overlay children whose key was not merged.
    The error returned by [AddChild] is dropped, as in the source. *)
Fixpoint add_new_children (h : heap) (u : ptr) (mergedKeys : list string)
    (cs : list ptr) : heap * outcome unit :=
  match cs with
  | [] => (h, Ok tt)
  | childFromAdd :: cs' =>
      match Key h childFromAdd with
      | None => (h, Panic)
      | Some k =>
          if slices_Contains mergedKeys k
          then add_new_children h u mergedKeys cs'
          else
            match AddChild h u childFromAdd with
            | (h1, Panic) => (h1, Panic)
            | (h1, _) => add_new_children h1 u mergedKeys cs'
            end
      end
  end.

(** The [if len(add) > 1] block: the overlays are merged among themselves,
    with the first overlay as the control of that merge. *)
Definition combine_overlays
    (rec : MergeOptions → heap → ptr → list ptr → heap * outcome ptr)
    (opts : MergeOptions) (h : heap) (add0 : ptr) (add1 : list ptr)
  : heap * outcome ptr :=
  match add1 with
  | [] => (h, Ok add0)
  | _ :: _ =>
      match rec opts h add0 add1 with
      | (h2, Err e) => (h2, Err (ErrMergingExternalChildren e))
      | r => r
      end
  end.

(** The body of [Union], with the recursive calls going through [rec]. *)
Definition Union_body
    (rec : MergeOptions → heap → ptr → list ptr → heap * outcome ptr)
    (opts : MergeOptions) (h : heap) (control : ptr) (add : list ptr)
  : heap * outcome ptr :=
  let u := control in
  match add with
  | [] => (h, Ok control)
  | add0 :: add1 =>
      match check_roots h control add with
      | RootsPanic => (h, Panic)
      | RootsMismatch nk ck => (h, Err (ErrMismatchedRoots nk ck))
      | RootsMatch =>
          match Children h control with
          | None => (h, Panic)
          | Some cs =>
              match merge_children (rec opts) h add [] cs with
              | (h1, Err e) => (h1, Err e)
              | (h1, Panic) => (h1, Panic)
              | (h1, OutOfFuel) => (h1, OutOfFuel)
              | (h1, Ok mergedKeys) =>
                  match combine_overlays rec opts h1 add0 add1 with
                  | (h2, Err e) => (h2, Err e)
                  | (h2, Panic) => (h2, Panic)
                  | (h2, OutOfFuel) => (h2, OutOfFuel)
                  | (h2, Ok addChildren) =>
                      match Children h2 addChildren with
                      | None => (h2, Ok u)     (* addChildren == nil *)
                      | Some acs =>
                          match add_new_children h2 u mergedKeys acs with
                          | (h3, Ok _) => (h3, Ok u)
                          | (h3, Err e) => (h3, Err e)
                          | (h3, Panic) => (h3, Panic)
                          | (h3, OutOfFuel) => (h3, OutOfFuel)
                          end
                      end
                  end
              end
          end
      end
  end.

Fixpoint Union (fuel : nat) (opts : MergeOptions) (h : heap) (control : ptr)
    (add : list ptr) {struct fuel} : heap * outcome ptr :=
  match fuel with
  | O => (h, OutOfFuel)
  | S fuel => Union_body (Union fuel) opts h control add
  end.

(** [findChildByKey] of [graph_test.go]: the outer [None] is a panic, the
    inner one the [nil] result. *)
Fixpoint find_key (h : heap) (key : string) (cs : list ptr)
  : option (option ptr) :=
  match cs with
  | [] => Some None
  | child :: cs' =>
      k ← Key h child;
      if String.eqb k key then Some (Some child) else find_key h key cs'
  end.

Definition findChildByKey (h : heap) (node : ptr) (key : string)
  : option (option ptr) :=
  match Children h node with
  | None => Some None          (* node == nil *)
  | Some cs => find_key h key cs
  end.

(** ** What a merge may do to the store

    [Union] only ever appends links to directory nodes.  [grows h n n']
    relates a node before and after: files are untouched; a directory keeps
    its name, parent and old links in order, and each new link points to a
    node that was already the child of some directory of [h] and carries a
    key that none of the directory's old children had. *)

Definition linked (h : heap) (q : ptr) : Prop :=
  ∃ p cs, Children h p = Some cs ∧ q ∈ cs.

(** The same as a test: some node of the store has [q] among its links. *)
Definition linkedb (h : heap) (q : ptr) : bool :=
  existsb (λ n, bool_decide (q ∈ Children_of n)) h.

Definition child_keys (h : heap) (cs : list ptr) : list (option string) :=
  map (Key h) cs.

Inductive grows (h : heap) : Node → Node → Prop :=
| grows_file f : grows h (File f) (File f)
| grows_dir name links extra parent :
    Forall (λ l, linked h (Target l) ∧
                 Key h (Target l) ∉ child_keys h (map Target links)) extra →
    grows h (Dir (DirectoryNode.mk name links parent))
            (Dir (DirectoryNode.mk name (links ++ extra) parent)).

Definition heap_ext (h h' : heap) : Prop :=
  length h' = length h ∧
  ∀ p n n', h !! p = Some n → h' !! p = Some n' → grows h n n'.

(** ** The children a merge hands to each root

    [new_children h seen add] lists, in order, the children that the
    overlays [add] contribute to a node whose children carry the keys
    [seen]: the children of the first overlay whose key is not in [seen],
    then (the first overlay being a directory, so that it can receive them)
    those of the later overlays whose key is new to all earlier ones. *)

Definition is_dir (h : heap) (p : ptr) : bool :=
  match h !! p with
  | Some (Dir _) => true
  | _ => false
  end.

Definition children_at (h : heap) (p : ptr) : list ptr :=
  default [] (Children h p).

Fixpoint new_children (h : heap) (seen : list (option string))
    (add : list ptr) : list ptr :=
  match add with
  | [] => []
  | o :: rest =>
      let ocs := children_at h o in
      filter (λ c, Key h c ∉ seen) ocs ++
      (if is_dir h o
       then new_children h (seen ++ child_keys h ocs) rest
       else [])
  end.

(** What [p] holds in [h'] after a merge started in [h] in which the
    roots [later] came after it. *)
Definition merged_at (h h' : heap) (p : ptr) (later : list ptr) : Prop :=
  Children h' p =
    (λ cs, cs ++ (if is_dir h p
                  then new_children h (child_keys h cs) later
                  else [])) <$> Children h p.

Fixpoint roots_merged (h h' : heap) (roots : list ptr) : Prop :=
  match roots with
  | [] => True
  | p :: later => merged_at h h' p later ∧ roots_merged h h' later
  end.

(** ** Following child keys

    [at_path h roots ks] lists the nodes reached from the nodes [roots] by
    following, one level at a time, the children whose keys are [ks]. *)
Fixpoint at_path (h : heap) (roots : list ptr) (ks : list string)
  : list ptr :=
  match ks with
  | [] => roots
  | k :: ks' =>
      at_path h (filter (λ c, Key h c = Some k)
                        (concat (children_at h <$> roots))) ks'
  end.

(** Every linked node whose key is one of [ks] is a directory. *)
Definition dirs_along (h : heap) (ks : list string) : Prop :=
  ∀ q k, linked h q → k ∈ ks → Key h q = Some k → is_dir h q = true.

(** ** Stores on which a merge runs to completion

    No link dangles, and the nodes are layered: [level] gives every node a
    depth and each link goes down by exactly one, as in separately built
    trees whose roots sit at the same depth.  On a finite layered store the
    recursion of [Union] is bounded. *)

Definition closed (h : heap) : Prop :=
  ∀ p cs q, Children h p = Some cs → q ∈ cs → is_Some (h !! q).

Definition graded (level : ptr → nat) (h : heap) : Prop :=
  ∀ p cs q, Children h p = Some cs → q ∈ cs → level q = S (level p).

(** The two conditions as a test on a concrete store. *)
Definition layeredb (level : ptr → nat) (h : heap) : bool :=
  forallb (λ p, match h !! p with
                | Some n =>
                    forallb (λ q, bool_decide (q < length h) &&
                                  bool_decide (level q = S (level p)))
                            (Children_of n)
                | None => true
                end) (seq 0 (length h)).

(** A call returns when it neither panics nor runs out of fuel. *)
Definition returns {A} (o : outcome A) : Prop :=
  match o with
  | Ok _ | Err _ => True
  | Panic | OutOfFuel => False
  end.

(** ** Reading a tree, and the trees of [graph_test.go] *)

(** [s] contains [sub]. *)
Definition mentions (s sub : string) : Prop :=
  ∃ pre post, s = pre +:+ sub +:+ post.

(** The walk of [PrintGraph] (sink/console): every node reached from [p],
    parents before children and children in link order, each given by the
    keys on the way to it.  A node reached twice is listed twice. *)
Fixpoint paths (fuel : nat) (h : heap) (p : ptr) : list (list string) :=
  match fuel with
  | O => []
  | S fuel =>
      match h !! p with
      | None => []
      | Some n =>
          [Key_of n] ::
          ((Key_of n ::.) <$> concat (paths fuel h <$> Children_of n))
      end
  end.

(** [d.AddChild(c)] as a statement, the returned error dropped. *)
Definition add_child (h : heap) (d c : ptr) : heap := (AddChild h d c).1.

(** The two trees of [TestUnion_MergeTwoGraphs], built by the same calls in
    the same order, with the keys as parameters. *)
Definition two_graphs (dir1 dir2 f1 f2 f3 f_root f_add : string)
  : heap * ptr * ptr :=
  let '(h, file1Control) := NewFileNode [] f1 in
  let '(h, dir1Control) := NewDirectoryNode h dir1 in
  let h := add_child h dir1Control file1Control in
  let '(h, fileControlRoot) := NewFileNode h f_root in
  let '(h, graph1Root) := NewDirectoryNode h "root" in
  let h := add_child h graph1Root dir1Control in
  let h := add_child h graph1Root fileControlRoot in
  let '(h, file2Add) := NewFileNode h f2 in
  let '(h, dir1Add) := NewDirectoryNode h dir1 in
  let h := add_child h dir1Add file2Add in
  let '(h, file3AddInDir2) := NewFileNode h f3 in
  let '(h, dir2Add) := NewDirectoryNode h dir2 in
  let h := add_child h dir2Add file3AddInDir2 in
  let '(h, fileAddRoot) := NewFileNode h f_add in
  let '(h, graph2Root) := NewDirectoryNode h "root" in
  let h := add_child h graph2Root dir1Add in
  let h := add_child h graph2Root dir2Add in
  let h := add_child h graph2Root fileAddRoot in
  (h, graph1Root, graph2Root).

(** The three trees of [TestUnion_MergeThreeGraphs]. *)
Definition three_graphs : heap * ptr * ptr * ptr :=
  let '(h, cf1) := NewFileNode [] "control_file1.txt" in
  let '(h, cd1) := NewDirectoryNode h "common_dir" in
  let h := add_child h cd1 cf1 in
  let '(h, controlRootFile) := NewFileNode h "control_only_file.txt" in
  let '(h, graph1Root) := NewDirectoryNode h "root" in
  let h := add_child h graph1Root cd1 in
  let h := add_child h graph1Root controlRootFile in
  let '(h, add1f2) := NewFileNode h "add1_file2.txt" in
  let '(h, add1d1) := NewDirectoryNode h "common_dir" in
  let h := add_child h add1d1 add1f2 in
  let '(h, add1f3) := NewFileNode h "add1_file3.txt" in
  let '(h, add1d2) := NewDirectoryNode h "add1_only_dir" in
  let h := add_child h add1d2 add1f3 in
  let '(h, graph2Root) := NewDirectoryNode h "root" in
  let h := add_child h graph2Root add1d1 in
  let h := add_child h graph2Root add1d2 in
  let '(h, add2f4) := NewFileNode h "add2_file4.txt" in
  let '(h, add2d1) := NewDirectoryNode h "common_dir" in
  let h := add_child h add2d1 add2f4 in
  let '(h, add2RootFile) := NewFileNode h "add2_only_file.txt" in
  let '(h, graph3Root) := NewDirectoryNode h "root" in
  let h := add_child h graph3Root add2d1 in
  let h := add_child h graph3Root add2RootFile in
  (h, graph1Root, graph2Root, graph3Root).

(** Two trees [root/{x}] whose files [x] carry the MD5 digests of the
    one-byte contents [a] and [b]. *)
Definition digest_a : list byte :=
  [x0c; xc1; x75; xb9; xc0; xf1; xb6; xa8; x31; xc3; x99; xe2; x69; x77; x26; x61].
Definition digest_b : list byte :=
  [x92; xeb; x5f; xfe; xe6; xae; x2f; xec; x3a; xd7; x1c; x77; x75; x31; x57; x8f].

Definition colliding_files : heap :=
  [ File (FileNode.mk "x" FILEACTION_COPY digest_a "" None);
    Dir (DirectoryNode.mk "root" [mkLink 0 RegularLink "x"] None);
    File (FileNode.mk "x" FILEACTION_COPY digest_b "" None);
    Dir (DirectoryNode.mk "root" [mkLink 2 RegularLink "x"] None) ].

(** Control [root/{y}] with [y] a file, overlay [root/{y/}] with [y] a
    directory. *)
Definition file_against_directory : heap * ptr * ptr :=
  let '(h, y) := NewFileNode [] "y" in
  let '(h, control) := NewDirectoryNode h "root" in
  let h := add_child h control y in
  let '(h, y') := NewDirectoryNode h "y" in
  let '(h, overlay) := NewDirectoryNode h "root" in
  let h := add_child h overlay y' in
  (h, control, overlay).

(** ** The public operations as a command language *)

Inductive api_call :=
| CallNewDirectoryNode (name : string)
| CallNewDirectoryNodeWithParent (name : string) (parent : ptr)
| CallNewFileNode (name : string)
| CallNewFileNodeWithParent (name : string) (parent : ptr)
| CallAddChild (p child : ptr)
| CallSetParent (p : ptr) (parent : option ptr)
| CallSetAction (p : ptr) (action : string)
| CallSetContent (p : ptr) (src : list byte)
| CallUnion (fuel : nat) (opts : MergeOptions) (control : ptr) (add : list ptr).

Definition run_call (md5_Sum : list byte → list byte)
    (filetype_Match : list byte → option string)
    (h : heap) (c : api_call) : heap :=
  match c with
  | CallNewDirectoryNode name => (NewDirectoryNode h name).1
  | CallNewDirectoryNodeWithParent name parent =>
      (NewDirectoryNodeWithParent h name parent).1
  | CallNewFileNode name => (NewFileNode h name).1
  | CallNewFileNodeWithParent name parent =>
      (NewFileNodeWithParent h name parent).1
  | CallAddChild p child => (AddChild h p child).1
  | CallSetParent p parent => (SetParent h p parent).1
  | CallSetAction p action => (SetAction h p action).1
  | CallSetContent p src => (SetContent md5_Sum filetype_Match h p src).1
  | CallUnion fuel opts control add => (Union fuel opts h control add).1
  end.

(** ** Printing a graph ([sink/console/main.go]) *)

(** Go's [int] is taken 64 bits wide; [level+1] wraps around. *)
Definition maxInt : Z := (2 ^ 63 - 1)%Z.
Definition int_wrap (z : Z) : Z := ((z + 2 ^ 63) mod 2 ^ 64 - 2 ^ 63)%Z.

Fixpoint repeat_string (s : string) (n : nat) : string :=
  match n with
  | O => ""
  | S n => s +:+ repeat_string s n
  end.

(** [strings.Repeat]: it panics ([None]) on a negative count and when the
    length of the result overflows. *)
Definition strings_Repeat (s : string) (count : Z) : option string :=
  if (count <? 0)%Z then None
  else if (maxInt <? Z.of_nat (String.length s) * count)%Z then None
  else Some (repeat_string s (Z.to_nat count)).

Definition newline : string := String "010"%char "".

(** The label [PrintGraph] computes.  The assertion of the node to
    [interface{ Action() string }] holds for file nodes only. *)
Definition nodeType_label (n : Node) : string :=
  if String.eqb (Type_of n) NODETYPE_DIRECTORY then "[DIR]"
  else if String.eqb (Type_of n) NODETYPE_FILE then
    match n with
    | File f => "[FILE:" +:+ FileNode.action f +:+ "]"
    | Dir _ => "[FILE]"
    end
  else "".

(** The loop over [node.Children()]; [rec] is the recursive call.  What was
    written to standard output is the list of lines returned. *)
Fixpoint print_children (rec : ptr → Z → list string * outcome unit)
    (cs : list ptr) (level : Z) : list string * outcome unit :=
  match cs with
  | [] => ([], Ok tt)
  | child :: cs' =>
      match rec child level with
      | (out, Ok _) =>
          let '(out', o) := print_children rec cs' level in (out ++ out', o)
      | (out, o) => (out, o)
      end
  end.

Fixpoint PrintGraph (fuel : nat) (h : heap) (node : ptr) (level : Z)
  : list string * outcome unit :=
  match fuel with
  | O => ([], OutOfFuel)
  | S fuel =>
      match strings_Repeat "  " level with
      | None => ([], Panic)
      | Some indent =>
          match h !! node with
          | None => ([], Panic)
          | Some n =>
              let line :=
                indent +:+ nodeType_label n +:+ " " +:+ Key_of n +:+ newline in
              let '(out, o) :=
                print_children (PrintGraph fuel h) (Children_of n)
                               (int_wrap (level + 1)) in
              (line :: out, o)
          end
      end
  end.

(** ** Building a graph from a directory ([source/fs/main.go]) *)

(** What the operating system answers: a value, or an error with its
    message. *)
Inductive os_result (A : Type) :=
| os_ok (a : A)
| os_err (msg : string).
Arguments os_ok {A} a.
Arguments os_err {A} msg.

Record DirEntry := mkDirEntry {
  entry_Name : string;
  entry_IsDir : bool
}.

(** The calls into [os] and [path/filepath]; [os_Stat] answers
    [info.IsDir()]. *)
Record FileSystem := mkFileSystem {
  filepath_Abs : string → os_result string;
  os_Stat : string → os_result bool;
  os_ReadDir : string → os_result (list DirEntry);
  os_ReadFile : string → os_result (list byte);
  filepath_Join : string → string → string;
  filepath_Base : string → string
}.

Inductive fs_error :=
| ErrAbs (rootPath msg : string)
| ErrStat (absRootPath msg : string)
| ErrNotADirectory (absRootPath : string)
| ErrReadDir (dirPath msg : string).

Definition fs_Error (e : fs_error) : string :=
  match e with
  | ErrAbs p m => "failed to get absolute path for " +:+ p +:+ ": " +:+ m
  | ErrStat p m => "failed to stat root path " +:+ p +:+ ": " +:+ m
  | ErrNotADirectory p => "root path " +:+ p +:+ " is not a directory"
  | ErrReadDir p m => "failed to read directory " +:+ p +:+ ": " +:+ m
  end.

Inductive fs_outcome (A : Type) :=
| FsOk (a : A)
| FsErr (e : fs_error)
| FsPanic
| FsOutOfFuel.
Arguments FsOk {A} a.
Arguments FsErr {A} e.
Arguments FsPanic {A}.
Arguments FsOutOfFuel {A}.

Section BuildGraph.
Variable md5_Sum : list byte → list byte.
Variable filetype_Match : list byte → option string.
Variable fs : FileSystem.

(** The loop of [walkDir] over the directory entries; [rec] is the
    recursive call.  The errors of [SetParent], [AddChild] and [SetContent]
    are dropped, as in the source; only a nil dereference stops the loop. *)
Fixpoint walk_entries (rec : heap → string → ptr → heap * fs_outcome unit)
    (h : heap) (dirPath : string) (parentNode : ptr) (entries : list DirEntry)
  : heap * fs_outcome unit :=
  match entries with
  | [] => (h, FsOk tt)
  | entry :: entries' =>
      let fullPath := filepath_Join fs dirPath (entry_Name entry) in
      if entry_IsDir entry then
        let '(h, dirNode) := NewDirectoryNode h (entry_Name entry) in
        match SetParent h dirNode (Some parentNode) with
        | (h, Panic) => (h, FsPanic)
        | (h, _) =>
            match AddChild h parentNode dirNode with
            | (h, Panic) => (h, FsPanic)
            | (h, _) =>
                match rec h fullPath dirNode with
                | (h, FsOk _) =>
                    walk_entries rec h dirPath parentNode entries'
                | (h, o) => (h, o)
                end
            end
        end
      else
        let '(h, fileNode) := NewFileNode h (entry_Name entry) in
        let after_read :=
          match os_ReadFile fs fullPath with
          | os_ok content => SetContent md5_Sum filetype_Match h fileNode content
          | os_err _ => (h, Ok tt)
          end in
        match after_read with
        | (h, Panic) => (h, FsPanic)
        | (h, _) =>
            match SetParent h fileNode (Some parentNode) with
            | (h, Panic) => (h, FsPanic)
            | (h, _) =>
                match AddChild h parentNode fileNode with
                | (h, Panic) => (h, FsPanic)
                | (h, _) => walk_entries rec h dirPath parentNode entries'
                end
            end
        end
  end.

Fixpoint walkDir (fuel : nat) (h : heap) (dirPath : string) (parentNode : ptr)
  : heap * fs_outcome unit :=
  match fuel with
  | O => (h, FsOutOfFuel)
  | S fuel =>
      match os_ReadDir fs dirPath with
      | os_err msg => (h, FsErr (ErrReadDir dirPath msg))
      | os_ok entries =>
          walk_entries (walkDir fuel) h dirPath parentNode entries
      end
  end.

Definition BuildGraph (fuel : nat) (h : heap) (rootPath : string)
  : heap * fs_outcome ptr :=
  match filepath_Abs fs rootPath with
  | os_err msg => (h, FsErr (ErrAbs rootPath msg))
  | os_ok absRootPath =>
      match os_Stat fs absRootPath with
      | os_err msg => (h, FsErr (ErrStat absRootPath msg))
      | os_ok isDir =>
          if negb isDir then (h, FsErr (ErrNotADirectory absRootPath))
          else
            let '(h, rootNode) :=
              NewDirectoryNode h (filepath_Base fs absRootPath) in
            match walkDir fuel h absRootPath rootNode with
            | (h, FsOk _) => (h, FsOk rootNode)
            | (h, FsErr e) => (h, FsErr e)
            | (h, FsPanic) => (h, FsPanic)
            | (h, FsOutOfFuel) => (h, FsOutOfFuel)
            end
      end
  end.
End BuildGraph.

(** * Properties *)

(** ** Extending the store *)


Lemma grows_refl h n : grows h n n.
Proof.
  destruct n as [[name links parent]|f]; [|constructor].
  rewrite <- (app_nil_r links) at 2. by constructor.
Qed.

Lemma heap_ext_refl h : heap_ext h h.
Proof.
  split; [done|]. intros p n n' Hn Hn'.
  rewrite Hn in Hn'. injection Hn' as <-. apply grows_refl.
Qed.

Lemma heap_ext_lookup h h' p n :
  heap_ext h h' → h !! p = Some n → ∃ n', h' !! p = Some n' ∧ grows h n n'.
Proof.
  intros [Hlen Hg] Hn.
  destruct (h' !! p) as [n'|] eqn:Hn'.
  - eauto.
  - apply lookup_ge_None in Hn'. apply lookup_lt_Some in Hn. lia.
Qed.

Lemma heap_ext_lookup_None h h' p :
  heap_ext h h' → h !! p = None → h' !! p = None.
Proof.
  intros [Hlen _] Hn. apply lookup_ge_None. apply lookup_ge_None in Hn. lia.
Qed.

Lemma grows_Key_of h n n' : grows h n n' → Key_of n' = Key_of n.
Proof. by destruct 1. Qed.

Lemma grows_Type_of h n n' : grows h n n' → Type_of n' = Type_of n.
Proof. by destruct 1. Qed.

Lemma grows_Children_of h n n' :
  grows h n n' →
  ∃ extra, Children_of n' = Children_of n ++ extra ∧
    Forall (λ q, linked h q ∧ Key h q ∉ child_keys h (Children_of n)) extra.
Proof.
  destruct 1 as [f|name links extra parent Hex]; simpl.
  - exists []. by split.
  - exists (map Target extra). split; [by rewrite map_app|].
    by apply Forall_fmap.
Qed.

Lemma heap_ext_Key h h' p : heap_ext h h' → Key h' p = Key h p.
Proof.
  intros Hext. unfold Key. destruct (h !! p) as [n|] eqn:Hn.
  - destruct (heap_ext_lookup _ _ _ _ Hext Hn) as (n' & -> & Hg).
    simpl. f_equal. by eapply grows_Key_of.
  - by rewrite (heap_ext_lookup_None _ _ _ Hext Hn).
Qed.

Lemma heap_ext_NodeType h h' p : heap_ext h h' → NodeType h' p = NodeType h p.
Proof.
  intros Hext. unfold NodeType. destruct (h !! p) as [n|] eqn:Hn.
  - destruct (heap_ext_lookup _ _ _ _ Hext Hn) as (n' & -> & Hg).
    simpl. f_equal. by eapply grows_Type_of.
  - by rewrite (heap_ext_lookup_None _ _ _ Hext Hn).
Qed.

Lemma heap_ext_child_keys h h' cs :
  heap_ext h h' → child_keys h' cs = child_keys h cs.
Proof.
  intros Hext. unfold child_keys. apply map_ext. intros. by apply heap_ext_Key.
Qed.

Lemma heap_ext_File h h' p f :
  heap_ext h h' → h !! p = Some (File f) → h' !! p = Some (File f).
Proof.
  intros Hext Hn. destruct (heap_ext_lookup _ _ _ _ Hext Hn) as (n' & -> & Hg).
  by inversion Hg.
Qed.

Lemma heap_ext_Children h h' p cs :
  heap_ext h h' → Children h p = Some cs →
  ∃ extra, Children h' p = Some (cs ++ extra) ∧
    Forall (λ q, linked h q ∧ Key h q ∉ child_keys h cs) extra.
Proof.
  intros Hext. unfold Children. destruct (h !! p) as [n|] eqn:Hn; [|done].
  simpl. intros [= <-].
  destruct (heap_ext_lookup _ _ _ _ Hext Hn) as (n' & -> & Hg). simpl.
  destruct (grows_Children_of _ _ _ Hg) as (extra & -> & Hex). eauto.
Qed.

Lemma heap_ext_Children_None h h' p :
  heap_ext h h' → Children h p = None → Children h' p = None.
Proof.
  intros Hext. unfold Children. destruct (h !! p) as [n|] eqn:Hn; [done|].
  intros _. by rewrite (heap_ext_lookup_None _ _ _ Hext Hn).
Qed.

Lemma heap_ext_Children_inv h h' p cs' :
  heap_ext h h' → Children h' p = Some cs' →
  ∃ cs extra, Children h p = Some cs ∧ cs' = cs ++ extra ∧
    Forall (λ q, linked h q ∧ Key h q ∉ child_keys h cs) extra.
Proof.
  intros Hext Hcs'. destruct (Children h p) as [cs|] eqn:Hcs.
  - destruct (heap_ext_Children _ _ _ _ Hext Hcs) as (extra & Heq & Hex).
    rewrite Heq in Hcs'. injection Hcs' as <-. eauto.
  - rewrite (heap_ext_Children_None _ _ _ Hext Hcs) in Hcs'. done.
Qed.

Lemma linked_children h p cs q : Children h p = Some cs → q ∈ cs → linked h q.
Proof. intros. by exists p, cs. Qed.

Lemma heap_ext_linked h h' q : heap_ext h h' → linked h' q ↔ linked h q.
Proof.
  intros Hext. split.
  - intros (p & cs' & Hcs' & Hq).
    destruct (heap_ext_Children_inv _ _ _ _ Hext Hcs')
      as (cs & extra & Hcs & -> & Hex).
    apply elem_of_app in Hq as [Hq|Hq].
    + by exists p, cs.
    + rewrite Forall_forall in Hex. by apply Hex.
  - intros (p & cs & Hcs & Hq).
    destruct (heap_ext_Children _ _ _ _ Hext Hcs) as (extra & Hcs' & _).
    exists p, (cs ++ extra). split; [done|]. apply elem_of_app. by left.
Qed.

Lemma heap_ext_trans h0 h1 h2 :
  heap_ext h0 h1 → heap_ext h1 h2 → heap_ext h0 h2.
Proof.
  intros H01 H12. split.
  { destruct H01 as [? _], H12 as [? _]. congruence. }
  intros p n n2 Hn Hn2.
  destruct (heap_ext_lookup _ _ _ _ H01 Hn) as (n1 & Hn1 & Hg1).
  destruct H12 as [_ Hg12]. specialize (Hg12 _ _ _ Hn1 Hn2).
  destruct Hg1 as [f|name links e1 parent He1]; inversion Hg12 as [|? ? e2 ? He2]; subst.
  - constructor.
  - rewrite <- app_assoc. constructor.
    apply Forall_app. split; [done|].
    eapply Forall_impl; [exact He2|]. simpl. intros l [Hl Hk].
    split; [by apply (heap_ext_linked h0 h1)|].
    rewrite (heap_ext_Key h0 h1), (heap_ext_child_keys h0 h1) in Hk by done.
    intros Hin. apply Hk. unfold child_keys in *.
    rewrite map_app, map_app. apply elem_of_app. by left.
Qed.

(** ** The loops of [Union], one at a time *)

Lemma slices_Contains_spec s v : slices_Contains s v = true ↔ v ∈ s.
Proof.
  unfold slices_Contains. rewrite existsb_exists. split.
  - intros (x & Hx & Heq). apply String.eqb_eq in Heq as ->.
    by apply list_elem_of_In.
  - intros Hin. exists v. split; [by apply list_elem_of_In|].
    apply String.eqb_refl.
Qed.

Lemma AddChild_inv h p child h1 o :
  AddChild h p child = (h1, o) →
  (h1 = h ∧ o ≠ Ok tt) ∨
  (∃ d k, h !! p = Some (Dir d) ∧ Key h child = Some k ∧ o = Ok tt ∧
     h1 = <[p := Dir (DirectoryNode.mk (DirectoryNode.name d)
                        (DirectoryNode.children d ++ [mkLink child RegularLink k])
                        (DirectoryNode.parent d))]> h).
Proof.
  unfold AddChild. intros H.
  destruct (h !! p) as [[d|f]|] eqn:Hp; [destruct (Key h child) as [k|] eqn:Hk|..];
    simplify_eq; [right; eauto 10|left..]; done.
Qed.

Lemma heap_ext_add_link h0 h u d child k :
  heap_ext h0 h →
  h !! u = Some (Dir d) →
  linked h0 child →
  Key h0 child = Some k →
  (∀ cs0, Children h0 u = Some cs0 → Some k ∉ child_keys h0 cs0) →
  heap_ext h0 (<[u := Dir (DirectoryNode.mk (DirectoryNode.name d)
                   (DirectoryNode.children d ++ [mkLink child RegularLink k])
                   (DirectoryNode.parent d))]> h).
Proof.
  intros Hext Hu Hl Hk Hnew. split.
  { rewrite length_insert. apply Hext. }
  intros p n n' Hn Hn'. destruct (decide (p = u)) as [->|Hne].
  - rewrite list_lookup_insert_eq in Hn' by (by eapply lookup_lt_Some).
    injection Hn' as <-.
    destruct Hext as [_ Hg]. specialize (Hg _ _ _ Hn Hu).
    inversion Hg as [|name links extra parent Hex]; subst. simpl.
    rewrite <- app_assoc. constructor. apply Forall_app. split; [done|].
    constructor; [|done]. simpl. split; [done|].
    rewrite Hk. apply Hnew. unfold Children. by rewrite Hn.
  - rewrite list_lookup_insert_ne in Hn' by done.
    destruct Hext as [_ Hg]. eauto.
Qed.

Lemma add_new_children_ext h0 u mergedKeys :
  (∀ cs0 k, Children h0 u = Some cs0 →
            Some k ∈ child_keys h0 cs0 → k ∈ mergedKeys) →
  ∀ cs h h' o,
    heap_ext h0 h → Forall (linked h0) cs →
    add_new_children h u mergedKeys cs = (h', o) → heap_ext h0 h'.
Proof.
  intros Hmk. induction cs as [|c cs IH]; intros h h' o Hext Hl; simpl.
  { by intros [= <- <-]. }
  apply Forall_cons in Hl as [Hc Hl].
  destruct (Key h c) as [k|] eqn:Hk; [|by intros [= <- <-]].
  destruct (slices_Contains mergedKeys k) eqn:Hin; [by eauto|].
  destruct (AddChild h u c) as [h1 o1] eqn:Hadd.
  assert (heap_ext h0 h1) as Hext1.
  { apply AddChild_inv in Hadd as [[-> _]|(d & k' & Hu & Hk' & -> & ->)]; [done|].
    rewrite Hk in Hk'. injection Hk' as <-.
    apply heap_ext_add_link; try done.
    - by rewrite <- (heap_ext_Key h0 h).
    - intros cs0 Hcs0 Hin'. apply Hmk in Hin'; [|done].
      apply slices_Contains_spec in Hin'. congruence. }
  destruct o1; [by eauto..|by intros [= <- <-]|by eauto].
Qed.

Section Body.
(** [rec] stands for the recursive call.  The loops and the body are
    studied under the assumption that it only extends the store. *)
Variable rec : MergeOptions → heap → ptr → list ptr → heap * outcome ptr.
Variable opts : MergeOptions.
Hypothesis rec_ext : ∀ h c m h1 o, rec opts h c m = (h1, o) → heap_ext h h1.

Lemma merge_children_ext cs : ∀ h add mergedKeys h' o,
  merge_children (rec opts) h add mergedKeys cs = (h', o) → heap_ext h h'.
Proof.
  induction cs as [|c cs IH]; intros h add mk h' o; simpl.
  { intros [= <- <-]. apply heap_ext_refl. }
  destruct (Key h c) as [k|]; [|intros [= <- <-]; apply heap_ext_refl].
  destruct (matchingChildrenFromAdd h add k) as [m|];
    [|intros [= <- <-]; apply heap_ext_refl].
  destruct (rec opts h c m) as [h1 o1] eqn:Hrec. apply rec_ext in Hrec.
  destruct o1; try (intros [= <- <-]; done).
  intros Hrest. apply IH in Hrest. by eapply heap_ext_trans.
Qed.

Lemma merge_children_keys cs : ∀ h add mergedKeys h' mergedKeys',
  merge_children (rec opts) h add mergedKeys cs = (h', Ok mergedKeys') →
  Some <$> mergedKeys' = (Some <$> mergedKeys) ++ child_keys h cs.
Proof.
  induction cs as [|c cs IH]; intros h add mk h' mk'; simpl.
  { intros [= <- <-]. by rewrite app_nil_r. }
  destruct (Key h c) as [k|] eqn:Hk; [|done].
  destruct (matchingChildrenFromAdd h add k) as [m|]; [|done].
  destruct (rec opts h c m) as [h1 o1] eqn:Hrec. apply rec_ext in Hrec.
  destruct o1; try done.
  intros Hrest. apply IH in Hrest. rewrite Hrest.
  rewrite fmap_app, <- app_assoc. simpl.
  by rewrite (heap_ext_child_keys h h1).
Qed.

Lemma combine_overlays_ext h add0 add1 h' o :
  combine_overlays rec opts h add0 add1 = (h', o) → heap_ext h h'.
Proof.
  unfold combine_overlays. destruct add1 as [|a1 a2].
  { intros [= <- <-]. apply heap_ext_refl. }
  destruct (rec opts h add0 (a1 :: a2)) as [h2 o2] eqn:Hrec.
  apply rec_ext in Hrec. destruct o2; by intros [= <- <-].
Qed.

(** The three phases of a call that gets past the root check. *)
Lemma Union_body_phases h control add0 add1 h' o :
  Union_body rec opts h control (add0 :: add1) = (h', o) →
  check_roots h control (add0 :: add1) = RootsMatch →
  ∃ cs h1 o1,
    Children h control = Some cs ∧
    merge_children (rec opts) h (add0 :: add1) [] cs = (h1, o1) ∧
    match o1 with
    | Ok mergedKeys =>
        ∃ h2 o2,
          combine_overlays rec opts h1 add0 add1 = (h2, o2) ∧
          match o2 with
          | Ok addChildren =>
              match Children h2 addChildren with
              | None => h' = h2 ∧ o = Ok control
              | Some acs =>
                  ∃ o3, add_new_children h2 control mergedKeys acs = (h', o3) ∧
                    match o3 with
                    | Ok _ => o = Ok control
                    | Err e => o = Err e
                    | Panic => o = Panic
                    | OutOfFuel => o = OutOfFuel
                    end
              end
          | Err e => h' = h2 ∧ o = Err e
          | Panic => h' = h2 ∧ o = Panic
          | OutOfFuel => h' = h2 ∧ o = OutOfFuel
          end
    | Err e => h' = h1 ∧ o = Err e
    | Panic => h' = h1 ∧ o = Panic
    | OutOfFuel => h' = h1 ∧ o = OutOfFuel
    end ∨
    Children h control = None ∧ h' = h ∧ o = Panic.
Proof.
  unfold Union_body. intros H Hchk. rewrite Hchk in H. revert H.
  destruct (Children h control) as [cs|] eqn:Hcs.
  2:{ intros [= <- <-]. exists [], h, Panic. by right. }
  destruct (merge_children _ _ _ _ _) as [h1 o1] eqn:Hloop.
  intros H. exists cs, h1, o1. left. split; [done|]. split; [done|].
  destruct o1 as [mk| | |]; try (by injection H as <- <-).
  destruct (combine_overlays _ _ _ _ _) as [h2 o2] eqn:Hcomb.
  exists h2, o2. split; [done|].
  destruct o2 as [ac| | |]; try (by injection H as <- <-).
  destruct (Children h2 ac) as [acs|] eqn:Hacs;
    [|by injection H as <- <-].
  destruct (add_new_children h2 control mk acs) as [h3 o3] eqn:Hadd.
  exists o3. destruct o3; by injection H as <- <-.
Qed.

Lemma Union_body_ext h control add h' o :
  Union_body rec opts h control add = (h', o) → heap_ext h h'.
Proof.
  destruct add as [|a0 a1]; [intros [= <- <-]; apply heap_ext_refl|].
  destruct (check_roots h control (a0 :: a1)) eqn:Hchk.
  2,3: unfold Union_body; rewrite Hchk; intros [= <- <-]; apply heap_ext_refl.
  intros H. apply Union_body_phases in H; [|done].
  destruct H as (cs & h1 & o1 & [(Hcs & Hloop & H)|(_ & -> & _)]);
    [|apply heap_ext_refl].
  assert (heap_ext h h1) as H1 by (by eapply merge_children_ext).
  destruct o1 as [mk| | |]; try (by destruct H as [-> _]).
  destruct H as (h2 & o2 & Hcomb & H).
  assert (heap_ext h h2) as H2.
  { eapply heap_ext_trans; [done|]. by eapply combine_overlays_ext. }
  destruct o2 as [ac| | |]; try (by destruct H as [-> _]).
  destruct (Children h2 ac) as [acs|] eqn:Hacs; [|by destruct H as [-> _]].
  destruct H as (o3 & Hadd & _).
  apply merge_children_keys in Hloop. simpl in Hloop.
  eapply add_new_children_ext; [|exact H2| |exact Hadd].
  - intros cs0 k Hcs0. rewrite Hcs in Hcs0. injection Hcs0 as <-.
    rewrite <- Hloop. intros Hin.
    apply list_elem_of_fmap in Hin as (k' & [= <-] & Hin). done.
  - apply Forall_forall. intros q Hq.
    apply (heap_ext_linked h h2); [done|]. by eapply linked_children.
Qed.
End Body.

(** ** [Union] only extends the store *)

Theorem Union_heap_ext fuel : ∀ opts h control add h' o,
  Union fuel opts h control add = (h', o) → heap_ext h h'.
Proof.
  induction fuel as [|fuel IH]; intros opts h u add h' o; simpl.
  { intros [= <- <-]. apply heap_ext_refl. }
  apply Union_body_ext. apply IH.
Qed.

(** ** Which children are matched, and when the root check passes *)

Lemma keep_matching_filter h k cs m :
  keep_matching h k cs = Some m →
  m = filter (λ c, Key h c = Some k) cs ∧ Forall (λ c, is_Some (Key h c)) cs.
Proof.
  revert m. induction cs as [|c cs IH]; intros m; simpl.
  { intros [= <-]. by split. }
  destruct (Key h c) as [ck|] eqn:Hck; [|done]. simpl.
  destruct (keep_matching h k cs) as [m'|]; [|done]. simpl.
  destruct (IH m' eq_refl) as [-> Hall]. intros [= <-].
  split; [|constructor; [by rewrite Hck|done]].
  rewrite filter_cons. destruct (String.eqb ck k) eqn:Heq.
  - apply String.eqb_eq in Heq as ->. by rewrite decide_True by (by rewrite Hck).
  - apply String.eqb_neq in Heq. rewrite decide_False; [done|].
    rewrite Hck. by intros [= ->].
Qed.

Lemma matchingChildrenFromAdd_spec h add k m :
  matchingChildrenFromAdd h add k = Some m →
  Forall (λ c, Key h c = Some k ∧ linked h c) m.
Proof.
  revert m. induction add as [|n add IH]; intros m; simpl.
  { by intros [= <-]. }
  destruct (Children h n) as [cs|] eqn:Hcs; [|done]. simpl.
  destruct (keep_matching h k cs) as [m1|] eqn:Hm1; [|done]. simpl.
  destruct (matchingChildrenFromAdd h add k) as [m2|]; [|done]. simpl.
  intros [= <-]. apply Forall_app. split; [|by apply IH].
  apply keep_matching_filter in Hm1 as [-> _].
  apply Forall_forall. intros c Hc. apply list_elem_of_filter in Hc as [Hk Hc].
  split; [done|]. by eapply linked_children.
Qed.

Lemma check_roots_match h control add :
  check_roots h control add = RootsMatch ↔
  Forall (λ n, ∃ k, Key h n = Some k ∧ Key h control = Some k) add.
Proof.
  induction add as [|n add IH]; simpl; [done|].
  rewrite Forall_cons, <- IH.
  destruct (Key h n) as [nk|], (Key h control) as [ck|];
    try (split; [done|by intros [(k & ? & ?) _]]).
  destruct (String.eqb nk ck) eqn:Heq; simpl.
  - apply String.eqb_eq in Heq as ->. split; [by eauto|by intros [_ ?]].
  - apply String.eqb_neq in Heq. split; [done|].
    intros [(k & ? & ?) _]. congruence.
Qed.

Lemma check_roots_mismatch h control add nk ck :
  check_roots h control add = RootsMismatch nk ck →
  Key h control = Some ck ∧ nk ≠ ck ∧ ∃ n, n ∈ add ∧ Key h n = Some nk.
Proof.
  induction add as [|n add IH]; simpl; [done|].
  destruct (Key h n) as [nk'|] eqn:Hn, (Key h control) as [ck'|]; try done.
  destruct (String.eqb nk' ck') eqn:Heq; simpl.
  - intros H. destruct (IH H) as (? & ? & n' & ? & ?).
    split; [done|]. split; [done|]. exists n'. split; [by right|done].
  - apply String.eqb_neq in Heq. intros [= <- <-].
    split; [done|]. split; [done|]. exists n. split; [by left|done].
Qed.

Lemma check_roots_matching h c k m :
  Key h c = Some k → Forall (λ n, Key h n = Some k ∧ linked h n) m →
  check_roots h c m = RootsMatch.
Proof.
  intros Hc Hm. apply check_roots_match.
  eapply Forall_impl; [exact Hm|]. simpl. intros n [Hn _]. by exists k.
Qed.

Lemma check_roots_ext h h' control add :
  heap_ext h h' → check_roots h' control add = check_roots h control add.
Proof.
  intros Hext. induction add as [|n add IH]; simpl; [done|].
  by rewrite !(heap_ext_Key h h'), IH.
Qed.

Lemma check_roots_tail h control add0 add1 :
  check_roots h control (add0 :: add1) = RootsMatch →
  check_roots h add0 add1 = RootsMatch.
Proof.
  rewrite !check_roots_match, Forall_cons.
  intros [(k & Hk0 & Hkc) Hall]. eapply Forall_impl; [exact Hall|].
  simpl. intros n (k' & ? & ?). exists k'. split; congruence.
Qed.

Lemma add_new_children_outcome h u mergedKeys cs h' o :
  add_new_children h u mergedKeys cs = (h', o) → o = Ok tt ∨ o = Panic.
Proof.
  revert h. induction cs as [|c cs IH]; intros h; simpl.
  { intros [= <- <-]. by left. }
  destruct (Key h c) as [k|]; [|intros [= <- <-]; by right].
  destruct (slices_Contains mergedKeys k); [by eauto|].
  destruct (AddChild h u c) as [h1 o1].
  destruct o1; eauto. intros [= <- <-]. by right.
Qed.

(** ** The only error is the root mismatch of the outermost call *)

Section BodyErrors.
Variable rec : MergeOptions → heap → ptr → list ptr → heap * outcome ptr.
Variable opts : MergeOptions.
Hypothesis rec_ext : ∀ h c m h1 o, rec opts h c m = (h1, o) → heap_ext h h1.
Hypothesis rec_err : ∀ h c m h1 e,
  rec opts h c m = (h1, Err e) → check_roots h c m ≠ RootsMatch.

Lemma merge_children_no_err cs : ∀ h add mergedKeys h' e,
  merge_children (rec opts) h add mergedKeys cs ≠ (h', Err e).
Proof.
  induction cs as [|c cs IH]; intros h add mk h' e; simpl; [done|].
  destruct (Key h c) as [k|] eqn:Hk; [|done].
  destruct (matchingChildrenFromAdd h add k) as [m|] eqn:Hm; [|done].
  destruct (rec opts h c m) as [h1 o1] eqn:Hrec.
  destruct o1 as [r|e1| |]; try done.
  apply rec_err in Hrec. destruct Hrec.
  eapply check_roots_matching; [done|].
  by eapply matchingChildrenFromAdd_spec.
Qed.

Lemma combine_overlays_no_err h add0 add1 h' e :
  check_roots h add0 add1 = RootsMatch →
  combine_overlays rec opts h add0 add1 ≠ (h', Err e).
Proof.
  unfold combine_overlays. intros Hchk. destruct add1 as [|a1 a2]; [done|].
  destruct (rec opts h add0 (a1 :: a2)) as [h2 o2] eqn:Hrec.
  destruct o2; try done. by apply rec_err in Hrec.
Qed.

Lemma Union_body_Err h control add h' e :
  Union_body rec opts h control add = (h', Err e) →
  h' = h ∧ ∃ nk ck, e = ErrMismatchedRoots nk ck ∧
                    check_roots h control add = RootsMismatch nk ck.
Proof.
  destruct add as [|a0 a1]; [done|].
  destruct (check_roots h control (a0 :: a1)) eqn:Hchk.
  2,3: unfold Union_body; rewrite Hchk; intros [= <- <-]; eauto.
  intros H. apply Union_body_phases in H; [|done].
  destruct H as (cs & h1 & o1 & [(Hcs & Hloop & H)|(_ & _ & ?)]); [|done].
  assert (heap_ext h h1) as H1 by (by eapply merge_children_ext).
  destruct o1 as [mk|e1| |]; try (by destruct H).
  2:{ by apply merge_children_no_err in Hloop. }
  destruct H as (h2 & o2 & Hcomb & H).
  destruct o2 as [ac|e2| |]; try (by destruct H).
  2:{ apply combine_overlays_no_err in Hcomb; [done|].
      rewrite (check_roots_ext h h1) by done. by eapply check_roots_tail. }
  destruct (Children h2 ac) as [acs|]; [|by destruct H].
  destruct H as (o3 & Hadd & H).
  apply add_new_children_outcome in Hadd as [->| ->]; done.
Qed.

Lemma Union_body_Ok h control add h' r :
  Union_body rec opts h control add = (h', Ok r) → r = control.
Proof.
  destruct add as [|a0 a1]; [by intros [= <- <-]|].
  destruct (check_roots h control (a0 :: a1)) eqn:Hchk.
  2,3: unfold Union_body; by rewrite Hchk.
  intros H. apply Union_body_phases in H; [|done].
  destruct H as (cs & h1 & o1 & [(Hcs & Hloop & H)|(_ & _ & ?)]); [|done].
  destruct o1 as [mk|e1| |]; try (by destruct H).
  destruct H as (h2 & o2 & Hcomb & H).
  destruct o2 as [ac|e2| |]; try (by destruct H).
  destruct (Children h2 ac) as [acs|]; [|destruct H; congruence].
  destruct H as (o3 & Hadd & H). destruct o3; congruence.
Qed.
End BodyErrors.

Theorem Union_Err fuel : ∀ opts h control add h' e,
  Union fuel opts h control add = (h', Err e) →
  h' = h ∧ ∃ nk ck, e = ErrMismatchedRoots nk ck ∧
                    check_roots h control add = RootsMismatch nk ck.
Proof.
  induction fuel as [|fuel IH]; intros opts h u add h' e; simpl; [done|].
  apply Union_body_Err.
  - intros. by eapply Union_heap_ext.
  - intros h0 c m h1 e1 Hrec. apply IH in Hrec as (_ & nk & ck & _ & ->). done.
Qed.

Theorem Union_Ok fuel opts h control add h' r :
  Union fuel opts h control add = (h', Ok r) → r = control.
Proof.
  destruct fuel as [|fuel]; simpl; [done|]. apply Union_body_Ok.
Qed.

(** ** Comparing two instances of the recursive call

    [rec2 opts2] answers like [rec1 opts1], except perhaps where [rec1]
    ran out of fuel (when [allow] is [False]).  Used twice: the merge
    options are never consulted, and more fuel does not change a result. *)

Section BodyRefine.
Variables rec1 rec2 :
  MergeOptions → heap → ptr → list ptr → heap * outcome ptr.
Variables opts1 opts2 : MergeOptions.
Variable allow : Prop.
Hypothesis rec_refine : ∀ h c m h' o,
  rec1 opts1 h c m = (h', o) → (o = OutOfFuel → allow) →
  rec2 opts2 h c m = (h', o).

Lemma merge_children_refine cs : ∀ h add mergedKeys h' o,
  merge_children (rec1 opts1) h add mergedKeys cs = (h', o) →
  (o = OutOfFuel → allow) →
  merge_children (rec2 opts2) h add mergedKeys cs = (h', o).
Proof.
  induction cs as [|c cs IH]; intros h add mk h' o; simpl; [done|].
  destruct (Key h c) as [k|]; [|done].
  destruct (matchingChildrenFromAdd h add k) as [m|]; [|done].
  destruct (rec1 opts1 h c m) as [h1 o1] eqn:Hrec.
  destruct o1 as [r|e| |].
  - rewrite (rec_refine _ _ _ _ _ Hrec) by done. apply IH.
  - rewrite (rec_refine _ _ _ _ _ Hrec) by done. done.
  - rewrite (rec_refine _ _ _ _ _ Hrec) by done. done.
  - intros [= <- <-] Hal. rewrite (rec_refine _ _ _ _ _ Hrec) by auto. done.
Qed.

Lemma combine_overlays_refine h add0 add1 h' o :
  combine_overlays rec1 opts1 h add0 add1 = (h', o) →
  (o = OutOfFuel → allow) →
  combine_overlays rec2 opts2 h add0 add1 = (h', o).
Proof.
  unfold combine_overlays. destruct add1 as [|a1 a2]; [done|].
  destruct (rec1 opts1 h add0 (a1 :: a2)) as [h2 o2] eqn:Hrec.
  destruct o2 as [r|e| |]; intros [= <- <-] Hal;
    by rewrite (rec_refine _ _ _ _ _ Hrec) by first [done|auto].
Qed.

Lemma Union_body_refine h control add h' o :
  Union_body rec1 opts1 h control add = (h', o) →
  (o = OutOfFuel → allow) →
  Union_body rec2 opts2 h control add = (h', o).
Proof.
  unfold Union_body. destruct add as [|a0 a1]; [done|].
  destruct (check_roots h control (a0 :: a1)); try done.
  destruct (Children h control) as [cs|]; [|done].
  destruct (merge_children (rec1 opts1) _ _ _ _) as [h1 o1] eqn:Hloop.
  destruct o1 as [mk|e| |];
    try (intros [= <- <-] Hal;
         by rewrite (merge_children_refine _ _ _ _ _ _ Hloop)
           by first [done|auto]).
  rewrite (merge_children_refine _ _ _ _ _ _ Hloop) by done.
  destruct (combine_overlays rec1 _ _ _ _) as [h2 o2] eqn:Hcomb.
  destruct o2 as [ac|e| |];
    try (intros [= <- <-] Hal;
         by rewrite (combine_overlays_refine _ _ _ _ _ Hcomb)
           by first [done|auto]).
  by rewrite (combine_overlays_refine _ _ _ _ _ Hcomb).
Qed.
End BodyRefine.

(** [Union] never looks at its merge options. *)
Theorem Union_opts_irrelevant fuel : ∀ opts1 opts2 h control add,
  Union fuel opts1 h control add = Union fuel opts2 h control add.
Proof.
  induction fuel as [|fuel IH]; intros opts1 opts2 h u add; simpl; [done|].
  destruct (Union_body (Union fuel) opts1 h u add) as [h' o] eqn:H.
  symmetry. eapply (Union_body_refine _ _ _ _ True); [|exact H|done].
  intros h0 c m h1 o1 Hrec _. by rewrite <- (IH opts1 opts2).
Qed.

(** A result obtained with some fuel is the result with any larger fuel. *)
Theorem Union_fuel_S fuel : ∀ opts h control add h' o,
  Union fuel opts h control add = (h', o) → o ≠ OutOfFuel →
  Union (S fuel) opts h control add = (h', o).
Proof.
  induction fuel as [|fuel IH]; intros opts h u add h' o.
  { simpl. by intros [= <- <-]. }
  intros H Hne. change (Union_body (Union (S fuel)) opts h u add = (h', o)).
  eapply (Union_body_refine _ _ _ _ False); [|exact H|done].
  intros h0 c m h1 o1 Hrec Hal. apply IH; [done|]. intros ->. by apply Hal.
Qed.

Theorem Union_fuel_mono fuel extra opts h control add h' o :
  Union fuel opts h control add = (h', o) → o ≠ OutOfFuel →
  Union (fuel + extra) opts h control add = (h', o).
Proof.
  intros H Hne. induction extra as [|extra IH].
  - by rewrite Nat.add_0_r.
  - rewrite Nat.add_succ_r. by apply Union_fuel_S.
Qed.

(** ** Frame: nodes that are nobody's child are touched only as roots *)

Lemma AddChild_other h u c h1 o p :
  AddChild h u c = (h1, o) → p ≠ u → h1 !! p = h !! p.
Proof.
  intros Hadd Hne.
  apply AddChild_inv in Hadd as [[-> _]|(d & k & _ & _ & _ & ->)]; [done|].
  by rewrite list_lookup_insert_ne.
Qed.

Lemma add_new_children_other u mergedKeys p cs : ∀ h h' o,
  add_new_children h u mergedKeys cs = (h', o) → p ≠ u → h' !! p = h !! p.
Proof.
  induction cs as [|c cs IH]; intros h h' o; simpl.
  { by intros [= <- <-]. }
  destruct (Key h c) as [k|]; [|by intros [= <- <-]].
  destruct (slices_Contains mergedKeys k); [by apply IH|].
  destruct (AddChild h u c) as [h1 o1] eqn:Hadd. intros H Hne.
  assert (h1 !! p = h !! p) as <- by (by eapply AddChild_other).
  destruct o1; try (by eapply IH). by injection H as <- <-.
Qed.

Section BodyFrame.
Variable rec : MergeOptions → heap → ptr → list ptr → heap * outcome ptr.
Variable opts : MergeOptions.
Hypothesis rec_ext : ∀ h c m h1 o, rec opts h c m = (h1, o) → heap_ext h h1.
Hypothesis rec_frame : ∀ h c m h1 o p,
  rec opts h c m = (h1, o) → ¬ linked h p → p ∉ c :: m → h1 !! p = h !! p.

Lemma merge_children_frame p cs : ∀ h add mergedKeys h' o,
  merge_children (rec opts) h add mergedKeys cs = (h', o) →
  Forall (linked h) cs → ¬ linked h p → h' !! p = h !! p.
Proof.
  induction cs as [|c cs IH]; intros h add mk h' o; simpl.
  { by intros [= <- <-]. }
  destruct (Key h c) as [k|]; [|by intros [= <- <-]].
  destruct (matchingChildrenFromAdd h add k) as [m|] eqn:Hm;
    [|by intros [= <- <-]].
  destruct (rec opts h c m) as [h1 o1] eqn:Hrec.
  intros H Hl Hp. apply Forall_cons in Hl as [Hc Hl].
  assert (h1 !! p = h !! p) as Hp1.
  { eapply rec_frame; [done..|]. intros Hin.
    apply elem_of_cons in Hin as [->|Hin]; [done|].
    apply matchingChildrenFromAdd_spec in Hm.
    rewrite Forall_forall in Hm. by destruct (Hm _ Hin). }
  destruct o1; try (by injection H as <- <-).
  apply rec_ext in Hrec. rewrite <- Hp1. eapply IH; [done| |].
  - eapply Forall_impl; [done|]. intros q. by apply heap_ext_linked.
  - by rewrite heap_ext_linked.
Qed.

Lemma combine_overlays_frame p h add0 add1 h' o :
  combine_overlays rec opts h add0 add1 = (h', o) →
  ¬ linked h p → p ∉ add0 :: add1 → h' !! p = h !! p.
Proof.
  unfold combine_overlays. destruct add1 as [|a1 a2].
  { by intros [= <- <-]. }
  destruct (rec opts h add0 (a1 :: a2)) as [h2 o2] eqn:Hrec.
  intros H Hp Hnin. assert (h2 !! p = h !! p) as <- by eauto.
  destruct o2; by injection H as <- <-.
Qed.

Lemma Union_body_frame p h control add h' o :
  Union_body rec opts h control add = (h', o) →
  ¬ linked h p → p ∉ control :: add → h' !! p = h !! p.
Proof.
  destruct add as [|a0 a1]; [by intros [= <- <-]|].
  destruct (check_roots h control (a0 :: a1)) eqn:Hchk.
  2,3: unfold Union_body; rewrite Hchk; by intros [= <- <-].
  intros H Hp Hnin. apply Union_body_phases in H; [|done].
  destruct H as (cs & h1 & o1 & [(Hcs & Hloop & H)|(_ & -> & _)]); [|done].
  assert (heap_ext h h1) as H1 by (by eapply merge_children_ext).
  assert (h1 !! p = h !! p) as Hp1.
  { eapply merge_children_frame; [done| |done].
    apply Forall_forall. intros q Hq. by eapply linked_children. }
  destruct o1 as [mk| | |]; try (by destruct H as [-> _]).
  destruct H as (h2 & o2 & Hcomb & H).
  assert (h2 !! p = h !! p) as Hp2.
  { rewrite <- Hp1. eapply combine_overlays_frame; [done| |].
    - by rewrite heap_ext_linked.
    - intros Hin. apply Hnin. by right. }
  destruct o2 as [ac| | |]; try (by destruct H as [-> _]).
  destruct (Children h2 ac) as [acs|]; [|by destruct H as [-> _]].
  destruct H as (o3 & Hadd & _). rewrite <- Hp2.
  eapply add_new_children_other; [done|]. intros ->. apply Hnin. by left.
Qed.
End BodyFrame.

Theorem Union_frame fuel : ∀ opts h control add h' o p,
  Union fuel opts h control add = (h', o) →
  ¬ linked h p → p ∉ control :: add → h' !! p = h !! p.
Proof.
  induction fuel as [|fuel IH]; intros opts h u add h' o p; simpl.
  { by intros [= <- <-]. }
  apply Union_body_frame.
  - intros. by eapply Union_heap_ext.
  - intros. by eapply IH.
Qed.

(** ** What the last loop appends *)

Lemma AddChild_cases h u c h1 o :
  AddChild h u c = (h1, o) →
  (h1 = h ∧ o ≠ Ok tt ∧ (is_dir h u = false ∨ Key h c = None)) ∨
  (∃ d k, h !! u = Some (Dir d) ∧ Key h c = Some k ∧ o = Ok tt ∧
     h1 = <[u := Dir (DirectoryNode.mk (DirectoryNode.name d)
                        (DirectoryNode.children d ++ [mkLink c RegularLink k])
                        (DirectoryNode.parent d))]> h).
Proof.
  unfold AddChild, is_dir. intros H.
  destruct (h !! u) as [[d|f]|] eqn:Hu; [destruct (Key h c) as [k|] eqn:Hk|..];
    simplify_eq; [right; eauto 10|left..]; auto.
Qed.

Lemma AddChild_Key h u c h1 o p : AddChild h u c = (h1, o) → Key h1 p = Key h p.
Proof.
  intros Hadd.
  apply AddChild_inv in Hadd as [[-> _]|(d & k & Hu & _ & _ & ->)]; [done|].
  unfold Key. destruct (decide (p = u)) as [->|Hne].
  - rewrite list_lookup_insert_eq by (by eapply lookup_lt_Some). by rewrite Hu.
  - by rewrite list_lookup_insert_ne.
Qed.

Lemma add_new_children_result u mergedKeys cs : ∀ h h',
  add_new_children h u mergedKeys cs = (h', Ok tt) →
  Children h' u =
    (λ ucs, ucs ++ (if is_dir h u
                    then filter (λ c, Key h c ∉ Some <$> mergedKeys) cs
                    else [])) <$> Children h u.
Proof.
  induction cs as [|c cs IH]; intros h h'; simpl.
  { intros [= <-]. destruct (Children h u), (is_dir h u); simpl;
      by rewrite ?app_nil_r. }
  destruct (Key h c) as [k|] eqn:Hk; [|done].
  destruct (slices_Contains mergedKeys k) eqn:Hin.
  { intros H. rewrite (IH _ _ H). apply slices_Contains_spec in Hin.
    rewrite filter_cons_False; [done|]. rewrite Hk. intros Hn. apply Hn.
    apply list_elem_of_fmap. eauto. }
  assert (Key h c ∉ Some <$> mergedKeys) as Hnew.
  { rewrite Hk. intros Hn. apply list_elem_of_fmap in Hn as (k' & [= <-] & Hn).
    apply slices_Contains_spec in Hn. congruence. }
  destruct (AddChild h u c) as [h1 o1] eqn:Hadd. intros H.
  assert (add_new_children h1 u mergedKeys cs = (h', Ok tt)) as H'.
  { destruct o1; try done. }
  clear H. apply IH in H'. rewrite H'.
  assert (filter (λ c0, Key h1 c0 ∉ Some <$> mergedKeys) cs
          = filter (λ c0, Key h c0 ∉ Some <$> mergedKeys) cs) as ->.
  { apply list_filter_iff. intros q. by rewrite (AddChild_Key _ _ _ _ _ q Hadd). }
  apply AddChild_cases in Hadd
    as [(-> & _ & [Hd|Hd])|(d & k' & Hu & _ & _ & ->)].
  - by rewrite Hd.
  - congruence.
  - unfold is_dir, Children.
    rewrite list_lookup_insert_eq by (by eapply lookup_lt_Some).
    rewrite Hu. simpl. rewrite filter_cons_True by done.
    by rewrite map_app, <- app_assoc.
Qed.

(** ** Algebra of [new_children] *)

Lemma filter_new_children h A add : ∀ B,
  filter (λ c, Key h c ∉ A) (new_children h B add) = new_children h (A ++ B) add.
Proof.
  induction add as [|o rest IH]; intros B; simpl; [done|].
  rewrite filter_app, list_filter_filter. f_equal.
  - apply list_filter_iff. intros c. rewrite elem_of_app. tauto.
  - destruct (is_dir h o); [|done]. by rewrite IH, app_assoc.
Qed.

Lemma new_children_sublist h add : ∀ seen,
  new_children h seen add `sublist_of` concat (children_at h <$> add).
Proof.
  induction add as [|o rest IH]; intros seen; simpl; [done|].
  apply sublist_app; [apply sublist_filter|].
  destruct (is_dir h o); [apply IH|apply sublist_nil_l].
Qed.

Lemma new_children_agree h h1 add : ∀ seen,
  (∀ p, Key h1 p = Key h p) →
  Forall (λ p, h1 !! p = h !! p) add →
  new_children h1 seen add = new_children h seen add.
Proof.
  intros seen HK Hall. revert seen.
  induction Hall as [|o rest Ho Hall IH]; intros seen; simpl; [done|].
  unfold children_at, Children, is_dir, child_keys. rewrite Ho.
  f_equal.
  - apply list_filter_iff. intros c. by rewrite HK.
  - destruct (h !! o) as [[d|f]|]; try done.
    rewrite <- IH. f_equal. f_equal. apply map_ext. intros. apply HK.
Qed.

Lemma merged_at_nil h p : merged_at h h p [].
Proof.
  unfold merged_at. simpl.
  destruct (Children h p), (is_dir h p); simpl; by rewrite ?app_nil_r.
Qed.

Lemma merged_at_agree h h1 h2 p later :
  (∀ q, Key h1 q = Key h q) →
  h1 !! p = h !! p → Forall (λ q, h1 !! q = h !! q) later →
  merged_at h1 h2 p later → merged_at h h2 p later.
Proof.
  unfold merged_at. intros HK Hp Hl ->.
  unfold Children, is_dir. rewrite Hp.
  destruct (h !! p) as [n|]; simpl; [|done]. f_equal. f_equal.
  destruct n; [|done]. rewrite (new_children_agree h h1) by done.
  f_equal. unfold child_keys. apply map_ext. intros. apply HK.
Qed.

Lemma roots_merged_agree h h1 h2 roots :
  (∀ q, Key h1 q = Key h q) →
  Forall (λ q, h1 !! q = h !! q) roots →
  roots_merged h1 h2 roots → roots_merged h h2 roots.
Proof.
  intros HK Hall. induction Hall as [|p later Hp Hl IH]; simpl; [done|].
  intros [Hm Hrest]. split; [by eapply merged_at_agree|by apply IH].
Qed.

Lemma roots_merged_frame h h2 h' roots :
  Forall (λ q, h' !! q = h2 !! q) roots →
  roots_merged h h2 roots → roots_merged h h' roots.
Proof.
  induction 1 as [|p later Hp Hl IH]; simpl; [done|].
  intros [Hm Hrest]. split; [|by apply IH].
  unfold merged_at, Children in *. by rewrite Hp.
Qed.

(** [linkedb] decides [linked]. *)
Lemma linkedb_spec (h : heap) q : linkedb h q = true ↔ linked h q.
Proof.
  unfold linkedb, linked, Children. rewrite existsb_exists. split.
  - intros (n & Hn & Hq). apply bool_decide_eq_true in Hq.
    apply list_elem_of_In, list_elem_of_lookup in Hn as [p Hp].
    exists p, (Children_of n). by rewrite Hp.
  - intros (p & cs & Hcs & Hq). destruct (h !! p) as [n|] eqn:Hn; [|done].
    injection Hcs as <-. exists n. split.
    + apply list_elem_of_In. by eapply list_elem_of_lookup_2.
    + by apply bool_decide_eq_true.
Qed.

Lemma unlinked_check (h : heap) (ps : list ptr) :
  forallb (λ p, negb (linkedb h p)) ps = true →
  Forall (λ p, ¬ linked h p) ps.
Proof.
  rewrite forallb_forall, Forall_forall. intros Hall p Hp Hl.
  apply list_elem_of_In, Hall, negb_true_iff in Hp.
  apply linkedb_spec in Hl. congruence.
Qed.

(** ** The children of every root after a merge

    The roots of a call (control first, then the overlays) are assumed to be
    pairwise distinct nodes that are the child of no directory, as the roots
    of separately built trees are.  Nothing is assumed below them. *)

Section BodyMerged.
Variable rec : MergeOptions → heap → ptr → list ptr → heap * outcome ptr.
Variable opts : MergeOptions.
Hypothesis rec_ext : ∀ h c m h1 o, rec opts h c m = (h1, o) → heap_ext h h1.
Hypothesis rec_frame : ∀ h c m h1 o p,
  rec opts h c m = (h1, o) → ¬ linked h p → p ∉ c :: m → h1 !! p = h !! p.
Hypothesis rec_Ok : ∀ h c m h1 r, rec opts h c m = (h1, Ok r) → r = c.
Hypothesis rec_merged : ∀ h c m h1 r,
  rec opts h c m = (h1, Ok r) →
  NoDup (c :: m) → Forall (λ p, ¬ linked h p) (c :: m) →
  roots_merged h h1 (c :: m).

Lemma combine_overlays_merged h add0 add1 h' r :
  combine_overlays rec opts h add0 add1 = (h', Ok r) →
  NoDup (add0 :: add1) → Forall (λ p, ¬ linked h p) (add0 :: add1) →
  r = add0 ∧ roots_merged h h' (add0 :: add1).
Proof.
  unfold combine_overlays. destruct add1 as [|a1 a2].
  { intros [= <- <-] _ _. split; [done|]. split; [apply merged_at_nil|done]. }
  destruct (rec opts h add0 (a1 :: a2)) as [h2 o2] eqn:Hrec.
  destruct o2; try done. intros [= <- <-] Hnd Hul.
  split; [by eapply rec_Ok|by eapply rec_merged].
Qed.

Lemma Union_body_merged h control add h' r :
  Union_body rec opts h control add = (h', Ok r) →
  NoDup (control :: add) → Forall (λ p, ¬ linked h p) (control :: add) →
  roots_merged h h' (control :: add).
Proof.
  destruct add as [|a0 a1].
  { intros [= <- <-] _ _. split; [apply merged_at_nil|done]. }
  destruct (check_roots h control (a0 :: a1)) eqn:Hchk.
  2,3: unfold Union_body; by rewrite Hchk.
  intros H Hnd Hul. apply Union_body_phases in H; [|done].
  destruct H as (cs & h1 & o1 & [(Hcs & Hloop & H)|(_ & _ & ?)]); [|done].
  apply NoDup_cons in Hnd as [Hu Hnd]. apply Forall_cons in Hul as [Hlu Hul].
  (* the loop over the control's children leaves every root as it was *)
  assert (heap_ext h h1) as H1 by (by eapply merge_children_ext).
  assert (∀ p, ¬ linked h p → h1 !! p = h !! p) as Hfr1.
  { intros p Hp. eapply merge_children_frame; [done..| |done].
    apply Forall_forall. intros q Hq. by eapply linked_children. }
  destruct o1 as [mk| | |]; try (by destruct H).
  apply merge_children_keys in Hloop; [|done]. simpl in Hloop.
  destruct H as (h2 & o2 & Hcomb & H).
  destruct o2 as [ac| | |]; try (by destruct H).
  (* the overlays are merged among themselves *)
  assert (heap_ext h1 h2) as H12 by (by eapply combine_overlays_ext).
  assert (heap_ext h h2) as H2 by (by eapply heap_ext_trans).
  assert (h2 !! control = h !! control) as Hu2.
  { rewrite <- (Hfr1 control) by done.
    eapply combine_overlays_frame; [done..| |done].
    by rewrite heap_ext_linked. }
  apply combine_overlays_merged in Hcomb as [-> Hm]; [|done|].
  2:{ eapply Forall_impl; [exact Hul|]. intros q. simpl.
      by rewrite (heap_ext_linked h h1). }
  apply (roots_merged_agree h) in Hm.
  2:{ intros q. by apply heap_ext_Key. }
  2:{ eapply Forall_impl; [exact Hul|]. intros q. apply Hfr1. }
  (* the last loop appends to the control only *)
  destruct (Children h2 a0) as [acs|] eqn:Hacs.
  2:{ apply check_roots_match in Hchk. apply Forall_cons in Hchk as [Hk _].
      destruct Hk as (k & Hk & _). unfold Key in Hk.
      destruct (h !! a0) as [n|] eqn:E; [|done].
      destruct (heap_ext_lookup _ _ _ _ H2 E) as (n' & E' & _).
      unfold Children in Hacs. by rewrite E' in Hacs. }
  destruct H as (o3 & Hadd & H).
  assert (o3 = Ok tt) as ->.
  { destruct o3 as [[]| | |]; congruence. }
  split.
  - pose proof (add_new_children_result _ _ _ _ _ Hadd) as Hres.
    unfold merged_at. rewrite Hres.
    unfold Children at 1, is_dir at 1. rewrite Hu2.
    fold (Children h control). fold (is_dir h control). rewrite Hcs. simpl.
    f_equal. f_equal. destruct (is_dir h control); [|done].
    rewrite Hloop.
    rewrite (list_filter_iff _ (λ c, Key h c ∉ child_keys h cs)).
    2:{ intros q. by rewrite (heap_ext_Key h h2). }
    destruct Hm as [Ha0 _]. unfold merged_at in Ha0. rewrite Hacs in Ha0.
    unfold children_at.
    destruct (Children h a0) as [a0cs|]; simpl in Ha0; [|done].
    injection Ha0 as ->. simpl. rewrite filter_app. f_equal.
    destruct (is_dir h a0); [|done]. apply filter_new_children.
  - eapply roots_merged_frame; [|exact Hm].
    apply Forall_forall. intros q Hq.
    eapply add_new_children_other; [done|]. by intros ->.
Qed.
End BodyMerged.

Theorem Union_roots_merged fuel : ∀ opts h control add h' r,
  Union fuel opts h control add = (h', Ok r) →
  NoDup (control :: add) → Forall (λ p, ¬ linked h p) (control :: add) →
  roots_merged h h' (control :: add).
Proof.
  induction fuel as [|fuel IH]; intros opts h u add h' r; simpl; [done|].
  apply Union_body_merged.
  - intros. by eapply Union_heap_ext.
  - intros. by eapply Union_frame.
  - intros. by eapply Union_Ok.
  - intros. by eapply IH.
Qed.

(** ** Layered stores stay layered *)

Lemma layeredb_spec level (h : heap) :
  layeredb level h = true → closed h ∧ graded level h.
Proof.
  unfold layeredb. rewrite forallb_forall. intros Hall.
  assert (∀ p cs q, Children h p = Some cs → q ∈ cs →
            (q < length h)%nat ∧ level q = S (level p)) as H.
  { intros p cs q Hcs Hq. unfold Children in Hcs.
    destruct (h !! p) as [n|] eqn:Hn; [|done]. injection Hcs as <-.
    specialize (Hall p). rewrite Hn in Hall.
    assert (In p (seq 0 (length h))) as Hin.
    { apply in_seq. apply lookup_lt_Some in Hn. lia. }
    apply Hall in Hin. rewrite forallb_forall in Hin.
    apply list_elem_of_In, Hin, andb_true_iff in Hq as [H1 H2].
    by apply bool_decide_eq_true in H1, H2. }
  split.
  - intros p cs q Hcs Hq. apply lookup_lt_is_Some. by eapply H.
  - intros p cs q Hcs Hq. by eapply H.
Qed.

Lemma layeredb_closed level (h : heap) : layeredb level h = true → closed h.
Proof. intros H. by apply layeredb_spec in H as [? _]. Qed.

Lemma layeredb_graded level (h : heap) :
  layeredb level h = true → graded level h.
Proof. intros H. by apply layeredb_spec in H as [_ ?]. Qed.

Lemma heap_ext_valid h h' p :
  heap_ext h h' → is_Some (h' !! p) ↔ is_Some (h !! p).
Proof. intros [Hlen _]. by rewrite !lookup_lt_is_Some, Hlen. Qed.

Lemma closed_linked h q : closed h → linked h q → is_Some (h !! q).
Proof. intros Hc (p & cs & Hcs & Hq). by eapply Hc. Qed.

Lemma closed_ext h h' : heap_ext h h' → closed h → closed h'.
Proof.
  intros Hext Hc p cs q Hcs Hq. apply (heap_ext_valid h h'); [done|].
  apply closed_linked; [done|]. apply (heap_ext_linked h h'); [done|].
  by eapply linked_children.
Qed.

Lemma matchingChildrenFromAdd_parent h add k m q :
  matchingChildrenFromAdd h add k = Some m → q ∈ m →
  ∃ a cs, a ∈ add ∧ Children h a = Some cs ∧ q ∈ cs.
Proof.
  revert m. induction add as [|n add IH]; intros m; simpl.
  { intros [= <-] Hq. by apply elem_of_nil in Hq. }
  destruct (Children h n) as [cs|] eqn:Hcs; [|done]. simpl.
  destruct (keep_matching h k cs) as [m1|] eqn:Hm1; [|done]. simpl.
  destruct (matchingChildrenFromAdd h add k) as [m2|]; [|done]. simpl.
  intros [= <-] Hq. apply elem_of_app in Hq as [Hq|Hq].
  - apply keep_matching_filter in Hm1 as [-> _].
    apply list_elem_of_filter in Hq as [_ Hq].
    exists n, cs. split; [by left|done].
  - destruct (IH _ eq_refl Hq) as (a & cs' & ? & ? & ?).
    exists a, cs'. split; [by right|done].
Qed.

Lemma AddChild_graded level h u c h1 o :
  AddChild h u c = (h1, o) → graded level h → level c = S (level u) →
  graded level h1.
Proof.
  intros Hadd Hg Hc.
  apply AddChild_inv in Hadd as [[-> _]|(d & k & Hu & _ & _ & ->)]; [done|].
  intros p cs q Hcs Hq. unfold Children in Hcs.
  destruct (decide (p = u)) as [->|Hne].
  - rewrite list_lookup_insert_eq in Hcs by (by eapply lookup_lt_Some).
    injection Hcs as <-. simpl in Hq. rewrite map_app in Hq.
    apply elem_of_app in Hq as [Hq|Hq].
    + eapply Hg; [|done]. unfold Children. by rewrite Hu.
    + apply list_elem_of_singleton in Hq as ->. done.
  - rewrite list_lookup_insert_ne in Hcs by done. by eapply Hg.
Qed.

Lemma add_new_children_graded level u mergedKeys cs : ∀ h h' o,
  add_new_children h u mergedKeys cs = (h', o) → graded level h →
  Forall (λ c, level c = S (level u)) cs → graded level h'.
Proof.
  induction cs as [|c cs IH]; intros h h' o; simpl.
  { by intros [= <- <-]. }
  intros H Hg Hl. apply Forall_cons in Hl as [Hc Hl]. revert H.
  destruct (Key h c) as [k|]; [|by intros [= <- <-]].
  destruct (slices_Contains mergedKeys k); [by eauto|].
  destruct (AddChild h u c) as [h1 o1] eqn:Hadd.
  assert (graded level h1) by (by eapply AddChild_graded).
  destruct o1; try (by eauto). by intros [= <- <-].
Qed.

Section BodyGraded.
Variable level : ptr → nat.
Variable rec : MergeOptions → heap → ptr → list ptr → heap * outcome ptr.
Variable opts : MergeOptions.
Hypothesis rec_Ok : ∀ h c m h1 r, rec opts h c m = (h1, Ok r) → r = c.
Hypothesis rec_graded : ∀ h c m h1 o,
  rec opts h c m = (h1, o) → graded level h →
  Forall (λ a, level a = level c) m → graded level h1.

Lemma merge_children_graded L cs : ∀ h add mergedKeys h' o,
  merge_children (rec opts) h add mergedKeys cs = (h', o) →
  graded level h → Forall (λ c, level c = S L) cs →
  Forall (λ a, level a = L) add → graded level h'.
Proof.
  induction cs as [|c cs IH]; intros h add mk h' o; simpl.
  { by intros [= <- <-]. }
  intros H Hg Hcs Hadd. apply Forall_cons in Hcs as [Hc Hcs]. revert H.
  destruct (Key h c) as [k|]; [|by intros [= <- <-]].
  destruct (matchingChildrenFromAdd h add k) as [m|] eqn:Hm;
    [|by intros [= <- <-]].
  destruct (rec opts h c m) as [h1 o1] eqn:Hrec.
  assert (graded level h1) as Hg1.
  { eapply rec_graded; [done..|]. apply Forall_forall. intros q Hq.
    destruct (matchingChildrenFromAdd_parent _ _ _ _ _ Hm Hq)
      as (a & cs' & Ha & Hcs' & Hq').
    rewrite (Hg _ _ _ Hcs' Hq'), Hc. f_equal.
    rewrite Forall_forall in Hadd. by apply Hadd. }
  destruct o1; try (by intros [= <- <-]). intros H. by eapply IH.
Qed.

Lemma combine_overlays_graded h add0 add1 h' o :
  combine_overlays rec opts h add0 add1 = (h', o) → graded level h →
  Forall (λ a, level a = level add0) add1 → graded level h'.
Proof.
  unfold combine_overlays. destruct add1 as [|a1 a2].
  { by intros [= <- <-]. }
  destruct (rec opts h add0 (a1 :: a2)) as [h2 o2] eqn:Hrec.
  intros H Hg Hl. assert (graded level h2) by eauto.
  destruct o2; by injection H as <- <-.
Qed.

Lemma Union_body_graded h control add h' o :
  Union_body rec opts h control add = (h', o) → graded level h →
  Forall (λ a, level a = level control) add → graded level h'.
Proof.
  destruct add as [|a0 a1]; [by intros [= <- <-]|].
  destruct (check_roots h control (a0 :: a1)) eqn:Hchk.
  2,3: unfold Union_body; rewrite Hchk; by intros [= <- <-].
  intros H Hg Hl. apply Union_body_phases in H; [|done].
  destruct H as (cs & h1 & o1 & [(Hcs & Hloop & H)|(_ & -> & _)]); [|done].
  assert (graded level h1) as Hg1.
  { eapply merge_children_graded; [done..| |done].
    apply Forall_forall. intros q Hq. by eapply Hg. }
  destruct o1 as [mk| | |]; try (by destruct H as [-> _]).
  destruct H as (h2 & o2 & Hcomb & H).
  apply Forall_cons in Hl as [Ha0 Hl].
  assert (graded level h2) as Hg2.
  { eapply combine_overlays_graded; [done..|].
    eapply Forall_impl; [exact Hl|]. simpl. congruence. }
  destruct o2 as [ac| | |]; try (by destruct H as [-> _]).
  destruct (Children h2 ac) as [acs|] eqn:Hacs; [|by destruct H as [-> _]].
  destruct H as (o3 & Hadd & _).
  eapply add_new_children_graded; [done..|].
  apply Forall_forall. intros q Hq. rewrite (Hg2 _ _ _ Hacs Hq). f_equal.
  unfold combine_overlays in Hcomb. destruct a1 as [|a1 a2].
  - by injection Hcomb as <- <-.
  - destruct (rec opts h1 a0 (a1 :: a2)) as [h2' o2'] eqn:Hrec.
    destruct o2'; try done. injection Hcomb as <- <-.
    by rewrite (rec_Ok _ _ _ _ _ Hrec).
Qed.
End BodyGraded.

Theorem Union_graded level fuel : ∀ opts h control add h' o,
  Union fuel opts h control add = (h', o) → graded level h →
  Forall (λ a, level a = level control) add → graded level h'.
Proof.
  induction fuel as [|fuel IH]; intros opts h u add h' o; simpl.
  { by intros [= <- <-]. }
  apply Union_body_graded.
  - intros. by eapply Union_Ok.
  - apply IH.
Qed.

(** ** On a layered store the merge returns *)

Lemma Key_valid h p : (p < length h)%nat → is_Some (Key h p).
Proof.
  intros Hp. apply lookup_lt_is_Some in Hp as [n Hn].
  unfold Key. rewrite Hn. by eexists.
Qed.

Lemma Children_valid h p : (p < length h)%nat → is_Some (Children h p).
Proof.
  intros Hp. apply lookup_lt_is_Some in Hp as [n Hn].
  unfold Children. rewrite Hn. by eexists.
Qed.

Lemma closed_children h p cs :
  closed h → Children h p = Some cs → Forall (λ q, (q < length h)%nat) cs.
Proof.
  intros Hc Hcs. apply Forall_forall. intros q Hq.
  apply lookup_lt_is_Some. by eapply Hc.
Qed.

Lemma check_roots_total h control add :
  (control < length h)%nat → Forall (λ a, (a < length h)%nat) add →
  check_roots h control add ≠ RootsPanic.
Proof.
  intros Hu. induction 1 as [|a add Ha _ IH]; simpl; [done|].
  destruct (Key_valid _ _ Ha) as [nk ->], (Key_valid _ _ Hu) as [ck ->].
  by destruct (negb (String.eqb nk ck)).
Qed.

Lemma keep_matching_total h k cs :
  Forall (λ c, (c < length h)%nat) cs → is_Some (keep_matching h k cs).
Proof.
  induction 1 as [|c cs Hc _ [m IH]]; simpl; [by eexists|].
  destruct (Key_valid _ _ Hc) as [ck ->]. rewrite IH. simpl. by eexists.
Qed.

Lemma matchingChildrenFromAdd_total h add k :
  closed h → Forall (λ a, (a < length h)%nat) add →
  is_Some (matchingChildrenFromAdd h add k).
Proof.
  intros Hc. induction 1 as [|a add Ha _ [ms IH]]; simpl; [by eexists|].
  destruct (Children_valid _ _ Ha) as [cs Hcs]. rewrite Hcs. simpl.
  destruct (keep_matching_total h k cs) as [m ->];
    [by eapply closed_children|].
  simpl. rewrite IH. simpl. by eexists.
Qed.

Lemma add_new_children_total u mergedKeys cs : ∀ h,
  (u < length h)%nat → Forall (λ c, (c < length h)%nat) cs →
  ∃ h', add_new_children h u mergedKeys cs = (h', Ok tt).
Proof.
  induction cs as [|c cs IH]; intros h Hu Hcs; simpl; [by eexists|].
  apply Forall_cons in Hcs as [Hc Hcs].
  destruct (Key_valid _ _ Hc) as [k Hk]. rewrite Hk.
  destruct (slices_Contains mergedKeys k); [by apply IH|].
  unfold AddChild. rewrite Hk.
  destruct (lookup_lt_is_Some_2 _ _ Hu) as [[d|f] ->].
  - apply IH; by rewrite length_insert.
  - by apply IH.
Qed.

Lemma Union_S fuel opts h control add :
  Union (S fuel) opts h control add
  = Union_body (Union fuel) opts h control add.
Proof. done. Qed.

Section Total.
Variable level : ptr → nat.
Variable opts : MergeOptions.
(** [N] is the size of the store, [B] the largest depth in it. *)
Variables N B : nat.
Hypothesis bound : ∀ p, (p < N)%nat → (level p ≤ B)%nat.

Section Loop.
Variable L : nat.
Hypothesis nested_returns : ∀ h c m,
  length h = N → closed h → graded level h →
  (c < N)%nat → level c = S L →
  Forall (λ a, (a < N)%nat ∧ level a = level c) m →
  ∃ fuel h' o, Union fuel opts h c m = (h', o) ∧ returns o.

Lemma merge_children_returns cs : ∀ h add mergedKeys,
  length h = N → closed h → graded level h →
  Forall (λ c, (c < N)%nat ∧ level c = S L) cs →
  Forall (λ a, (a < N)%nat ∧ level a = L) add →
  ∃ fuel h' o,
    merge_children (Union fuel opts) h add mergedKeys cs = (h', o) ∧
    returns o.
Proof.
  induction cs as [|c cs IH]; intros h add mk Hlen Hc Hg Hcs Hadd; simpl.
  { by exists 0%nat, h, (Ok mk). }
  apply Forall_cons in Hcs as [[Hcv Hcl] Hcs].
  destruct (Key_valid h c) as [k Hk]; [by rewrite Hlen|]. rewrite Hk.
  destruct (matchingChildrenFromAdd_total h add k) as [m Hm]; [done| |].
  { rewrite Hlen. eapply Forall_impl; [exact Hadd|]. by intros a [? _]. }
  rewrite Hm.
  assert (Forall (λ a, (a < N)%nat ∧ level a = level c) m) as Hmv.
  { apply Forall_forall. intros q Hq.
    destruct (matchingChildrenFromAdd_parent _ _ _ _ _ Hm Hq)
      as (a & cs' & Ha & Hcs' & Hq').
    split.
    - rewrite <- Hlen. apply lookup_lt_is_Some. by eapply Hc.
    - rewrite (Hg _ _ _ Hcs' Hq'), Hcl. f_equal.
      rewrite Forall_forall in Hadd. by apply Hadd. }
  destruct (nested_returns h c m) as (f1 & h1 & o1 & Hrec & Hret); try done.
  destruct o1 as [r|e| |]; try done.
  2:{ exists f1, h1, (Err (ErrMergingChildren e)). by rewrite Hrec. }
  assert (heap_ext h h1) as Hext by (by eapply Union_heap_ext).
  destruct (IH h1 add (mk ++ [k])) as (f2 & h2 & o2 & Hrest & Hret2);
    try done.
  { destruct Hext as [-> _]. done. }
  { by eapply closed_ext. }
  { eapply Union_graded; [done..|].
    eapply Forall_impl; [exact Hmv|]. by intros a [_ ?]. }
  exists (f1 + f2)%nat, h2, o2.
  rewrite (Union_fuel_mono f1 f2 _ _ _ _ _ _ Hrec) by done.
  split; [|done].
  eapply (merge_children_refine (Union f2) _ opts opts False);
    [|exact Hrest|by destruct o2].
  intros h0 c0 m0 h0' o0 H0 Hne. rewrite Nat.add_comm.
  apply Union_fuel_mono; [done|]. intros ->. by apply Hne.
Qed.
End Loop.

Lemma Union_returns_aux : ∀ d n h control add,
  (B - level control = d)%nat → (length add ≤ n)%nat →
  length h = N → closed h → graded level h → (control < N)%nat →
  Forall (λ a, (a < N)%nat ∧ level a = level control) add →
  ∃ fuel h' o, Union fuel opts h control add = (h', o) ∧ returns o.
Proof.
  induction d as [d IHd] using lt_wf_ind.
  induction n as [|n IHn]; intros h u add Hd Hn Hlen Hc Hg Hu Hadd.
  { destruct add; [|simpl in Hn; lia]. by exists 1%nat, h, (Ok u). }
  destruct add as [|a0 a1]; [by exists 1%nat, h, (Ok u)|].
  assert (Forall (λ a, (a < length h)%nat) (a0 :: a1)) as Haddv.
  { rewrite Hlen. eapply Forall_impl; [exact Hadd|]. by intros a [? _]. }
  destruct (check_roots h u (a0 :: a1)) as [|nk ck|] eqn:Hchk.
  2:{ exists 1%nat, h, (Err (ErrMismatchedRoots nk ck)).
      rewrite Union_S. unfold Union_body. by rewrite Hchk. }
  2:{ apply check_roots_total in Hchk; [done|by rewrite Hlen|done]. }
  destruct (Children_valid h u) as [cs Hcs]; [by rewrite Hlen|].
  destruct (merge_children_returns (level u)) with (cs := cs) (h := h)
    (add := a0 :: a1) (mergedKeys := @nil string)
    as (f1 & h1 & o1 & Hloop & Hret1); try done.
  { intros h0 c m Hlen0 Hc0 Hg0 Hcv Hcl Hm.
    apply (IHd (B - level c)%nat) with (n := length m); try done.
    specialize (bound c Hcv). lia. }
  { apply Forall_forall. intros q Hq. split.
    - rewrite <- Hlen. apply lookup_lt_is_Some. by eapply Hc.
    - by eapply Hg. }
  assert (heap_ext h h1) as Hext1.
  { eapply merge_children_ext; [|exact Hloop]. intros. by eapply Union_heap_ext. }
  assert (length h1 = N) as Hlen1 by (destruct Hext1 as [-> _]; done).
  assert (closed h1) as Hc1 by (by eapply closed_ext).
  assert (graded level h1) as Hg1.
  { eapply merge_children_graded; [|exact Hloop|done| |].
    - intros. by eapply Union_graded.
    - apply Forall_forall. intros q Hq. by eapply Hg.
    - eapply Forall_impl; [exact Hadd|]. by intros a [_ ?]. }
  destruct o1 as [mk|e| |]; try done.
  2:{ exists (S f1), h1, (Err e).
      rewrite Union_S. unfold Union_body. by rewrite Hchk, Hcs, Hloop. }
  apply Forall_cons in Hadd as [[Ha0 Hl0] Hadd].
  assert (∃ f2 h2 o2, Union f2 opts h1 a0 a1 = (h2, o2) ∧ returns o2)
    as (f2 & h2 & o2 & Hcomb & Hret2).
  { apply (IHn h1 a0 a1); try done.
    - by rewrite Hl0.
    - simpl in Hn. lia.
    - eapply Forall_impl; [exact Hadd|]. simpl. intros a [? ?].
      split; [done|congruence]. }
  assert (heap_ext h1 h2) as Hext2 by (by eapply Union_heap_ext).
  assert (merge_children (Union (f1 + f2) opts) h (a0 :: a1) [] cs
          = (h1, Ok mk)) as Hloop'.
  { eapply (merge_children_refine (Union f1) _ opts opts False);
      [|exact Hloop|done].
    intros h0 c0 m0 h0' o0 H0 Hne.
    apply Union_fuel_mono; [done|]. intros ->. by apply Hne. }
  assert (Union (f1 + f2) opts h1 a0 a1 = (h2, o2)) as Hcomb'.
  { rewrite Nat.add_comm. apply Union_fuel_mono; [done|]. by destruct o2. }
  destruct a1 as [|a1 a2].
  - destruct (Children_valid h1 a0) as [acs Hacs]; [by rewrite Hlen1|].
    destruct (add_new_children_total u mk acs h1) as [h3 Hfin].
    { by rewrite Hlen1. }
    { by eapply closed_children. }
    exists (S (f1 + f2)), h3, (Ok u).
    rewrite Union_S. unfold Union_body. rewrite Hchk, Hcs, Hloop'. simpl.
    by rewrite Hacs, Hfin.
  - destruct o2 as [ac|e| |]; try done.
    2:{ exists (S (f1 + f2)), h2, (Err (ErrMergingExternalChildren e)).
        rewrite Union_S. unfold Union_body. rewrite Hchk, Hcs, Hloop'.
        unfold combine_overlays. by rewrite Hcomb'. }
    apply Union_Ok in Hcomb as Hac. subst ac.
    assert (length h2 = N) as Hlen2 by (destruct Hext2 as [-> _]; done).
    destruct (Children_valid h2 a0) as [acs Hacs]; [by rewrite Hlen2|].
    destruct (add_new_children_total u mk acs h2) as [h3 Hfin].
    { by rewrite Hlen2. }
    { eapply closed_children; [|done]. by eapply closed_ext. }
    exists (S (f1 + f2)), h3, (Ok u).
    rewrite Union_S. unfold Union_body. rewrite Hchk, Hcs, Hloop'.
    unfold combine_overlays. by rewrite Hcomb', Hacs, Hfin.
Qed.
End Total.

(** The depth function is bounded on a finite store, so a merge on a
    layered store whose roots lie at one depth returns, whatever the merge
    options; and with enough fuel the answer no longer depends on the
    fuel. *)
Theorem Union_returns level opts h control add :
  closed h → graded level h → (control < length h)%nat →
  Forall (λ a, (a < length h)%nat ∧ level a = level control) add →
  ∃ fuel h' o,
    (∀ extra, Union (fuel + extra) opts h control add = (h', o)) ∧ returns o.
Proof.
  intros Hc Hg Hu Hadd.
  destruct (Union_returns_aux level opts (length h)
              (max_list (level <$> seq 0 (length h))))
    with (d := (max_list (level <$> seq 0 (length h)) - level control)%nat)
         (n := length add) (h := h) (control := control) (add := add)
    as (fuel & h' & o & H & Hret); try done.
  { intros p Hp. apply max_list_elem_of_le, list_elem_of_fmap.
    exists p. split; [done|]. apply elem_of_seq. lia. }
  exists fuel, h', o. split; [|done].
  intros extra. apply Union_fuel_mono; [done|]. by destruct o.
Qed.

(** When moreover the root keys agree, the merge succeeds. *)
Theorem Union_succeeds level opts h control add :
  closed h → graded level h → (control < length h)%nat →
  Forall (λ a, (a < length h)%nat ∧ level a = level control) add →
  check_roots h control add = RootsMatch →
  ∃ fuel h', ∀ extra, Union (fuel + extra) opts h control add = (h', Ok control).
Proof.
  intros Hc Hg Hu Hadd Hchk.
  destruct (Union_returns level opts h control add)
    as (fuel & h' & o & H & Hret); try done.
  exists fuel, h'. intros extra. rewrite H. f_equal.
  specialize (H 0%nat). destruct o as [r|e| |]; try done.
  - by apply Union_Ok in H as ->.
  - apply Union_Err in H as (_ & nk & ck & _ & Hmis). congruence.
Qed.

(** ** Every key of an overlay reaches the control, at every depth *)

Lemma heap_ext_is_dir h h' p : heap_ext h h' → is_dir h' p = is_dir h p.
Proof.
  intros Hext. unfold is_dir. destruct (h !! p) as [n|] eqn:Hn.
  - destruct (heap_ext_lookup _ _ _ _ Hext Hn) as (n' & -> & Hg).
    by destruct Hg.
  - by rewrite (heap_ext_lookup_None _ _ _ Hext Hn).
Qed.

Lemma heap_ext_children_at h h' p q :
  heap_ext h h' → q ∈ children_at h p → q ∈ children_at h' p.
Proof.
  intros Hext. unfold children_at.
  destruct (Children h p) as [cs|] eqn:Hcs; simpl.
  - destruct (heap_ext_Children _ _ _ _ Hext Hcs) as (extra & -> & _).
    simpl. intros. apply elem_of_app. by left.
  - intros Hq. by apply elem_of_nil in Hq.
Qed.

Lemma children_at_linked h p q : q ∈ children_at h p → linked h q.
Proof.
  unfold children_at. destruct (Children h p) as [cs|] eqn:Hcs; simpl.
  - intros. by exists p, cs.
  - intros Hq. by apply elem_of_nil in Hq.
Qed.

Lemma is_dir_Children h p : is_dir h p = true → is_Some (Children h p).
Proof.
  unfold is_dir, Children. destruct (h !! p) as [n|]; [by eexists|done].
Qed.

Lemma elem_of_concat {A} (x : A) (ls : list (list A)) :
  x ∈ concat ls ↔ ∃ l, x ∈ l ∧ l ∈ ls.
Proof.
  rewrite list_elem_of_In, in_concat. split.
  - intros (l & Hl & Hx). exists l. by rewrite !list_elem_of_In.
  - intros (l & Hx & Hl). exists l. by rewrite <- !list_elem_of_In.
Qed.

Lemma elem_of_keyed_children h roots k q :
  q ∈ filter (λ c, Key h c = Some k) (concat (children_at h <$> roots)) ↔
  Key h q = Some k ∧ ∃ r, r ∈ roots ∧ q ∈ children_at h r.
Proof.
  rewrite list_elem_of_filter, elem_of_concat. split.
  - intros [Hk (l & Hq & Hl)]. split; [done|].
    apply list_elem_of_fmap in Hl as (r & -> & Hr). eauto.
  - intros [Hk (r & Hr & Hq)]. split; [done|].
    exists (children_at h r). split; [done|].
    apply list_elem_of_fmap. eauto.
Qed.

Lemma at_path_mono ks : ∀ h h' roots roots',
  heap_ext h h' → (∀ r, r ∈ roots → r ∈ roots') →
  ∀ c, c ∈ at_path h roots ks → c ∈ at_path h' roots' ks.
Proof.
  induction ks as [|k ks IH]; intros h h' roots roots' Hext Hsub; simpl.
  { done. }
  apply IH; [done|]. intros q. rewrite !elem_of_keyed_children.
  intros [Hk (r & Hr & Hq)]. split.
  - by rewrite (heap_ext_Key h h').
  - exists r. split; [by apply Hsub|]. by eapply heap_ext_children_at.
Qed.

Lemma at_path_root ks : ∀ h roots c,
  c ∈ at_path h roots ks → ∃ r, r ∈ roots ∧ c ∈ at_path h [r] ks.
Proof.
  induction ks as [|k ks IH]; intros h roots c; cbn [at_path].
  { intros Hc. exists c. split; [done|]. by apply list_elem_of_singleton. }
  intros Hc. apply IH in Hc as (r' & Hr' & Hc).
  apply elem_of_keyed_children in Hr' as [Hk (r & Hr & Hq)].
  exists r. split; [done|].
  eapply at_path_mono; [apply heap_ext_refl| |exact Hc].
  intros q Hq'. apply list_elem_of_singleton in Hq' as ->.
  apply elem_of_keyed_children. split; [done|].
  exists r. split; [by apply list_elem_of_singleton|done].
Qed.

Lemma matchingChildrenFromAdd_eq h add k m :
  matchingChildrenFromAdd h add k = Some m →
  m = filter (λ c, Key h c = Some k) (concat (children_at h <$> add)).
Proof.
  revert m. induction add as [|n add IH]; intros m; simpl.
  { by intros [= <-]. }
  unfold children_at at 1.
  destruct (Children h n) as [cs|] eqn:Hcs; [|done]. simpl.
  destruct (keep_matching h k cs) as [m1|] eqn:Hm1; [|done]. simpl.
  destruct (matchingChildrenFromAdd h add k) as [m2|]; [|done]. simpl.
  intros [= <-]. apply keep_matching_filter in Hm1 as [-> _].
  by rewrite filter_app, (IH m2).
Qed.

Lemma AddChild_children_at h u c h1 o p q :
  AddChild h u c = (h1, o) → q ∈ children_at h p → q ∈ children_at h1 p.
Proof.
  intros Hadd.
  apply AddChild_inv in Hadd as [[-> _]|(d & k & Hu & _ & _ & ->)]; [done|].
  unfold children_at, Children. destruct (decide (p = u)) as [->|Hne].
  - rewrite list_lookup_insert_eq by (by eapply lookup_lt_Some).
    rewrite Hu. simpl. rewrite map_app. intros. apply elem_of_app. by left.
  - by rewrite list_lookup_insert_ne.
Qed.

Lemma add_new_children_children_at u mergedKeys cs p q : ∀ h h' o,
  add_new_children h u mergedKeys cs = (h', o) →
  q ∈ children_at h p → q ∈ children_at h' p.
Proof.
  induction cs as [|c cs IH]; intros h h' o; simpl.
  { by intros [= <- <-]. }
  destruct (Key h c) as [k|]; [|by intros [= <- <-]].
  destruct (slices_Contains mergedKeys k); [by eauto|].
  destruct (AddChild h u c) as [h1 o1] eqn:Hadd. intros H Hq.
  assert (q ∈ children_at h1 p) by (by eapply AddChild_children_at).
  destruct o1; try (by eauto). by injection H as <- <-.
Qed.

Section BodyNested.
Variable rec : MergeOptions → heap → ptr → list ptr → heap * outcome ptr.
Variable opts : MergeOptions.
Hypothesis rec_ext : ∀ h c m h1 o, rec opts h c m = (h1, o) → heap_ext h h1.

(** The recursive call made for one child of the control. *)
Lemma merge_children_nested cs : ∀ h add mergedKeys h1 mergedKeys' c,
  merge_children (rec opts) h add mergedKeys cs = (h1, Ok mergedKeys') →
  c ∈ cs →
  ∃ hi k m hi' r,
    heap_ext h hi ∧ Key hi c = Some k ∧
    matchingChildrenFromAdd hi add k = Some m ∧
    rec opts hi c m = (hi', Ok r) ∧ heap_ext hi' h1.
Proof.
  induction cs as [|c0 cs IH]; intros h add mk h1 mk' c; simpl.
  { intros _ Hc. by apply elem_of_nil in Hc. }
  destruct (Key h c0) as [k|] eqn:Hk; [|done].
  destruct (matchingChildrenFromAdd h add k) as [m|] eqn:Hm; [|done].
  destruct (rec opts h c0 m) as [h0 o0] eqn:Hrec.
  destruct o0 as [r| | |]; try done.
  intros Hrest Hc. pose proof (rec_ext _ _ _ _ _ Hrec) as Hext.
  apply elem_of_cons in Hc as [->|Hc].
  - exists h, k, m, h0, r. split; [apply heap_ext_refl|].
    do 3 (split; [done|]). by eapply merge_children_ext.
  - destruct (IH _ _ _ _ _ _ Hrest Hc)
      as (hi & k' & m' & hi' & r' & ? & ? & ? & ? & ?).
    exists hi, k', m', hi', r'. split; [|done].
    by eapply heap_ext_trans.
Qed.
End BodyNested.

(** A successful call decomposed: the loop over the control's children,
    the merge of the overlays among themselves, the final appends. *)
Lemma Union_S_Ok fuel opts h u a0 a1 h' r :
  Union (S fuel) opts h u (a0 :: a1) = (h', Ok r) →
  ∃ cs h1 mergedKeys h2 acs,
    Children h u = Some cs ∧
    merge_children (Union fuel opts) h (a0 :: a1) [] cs = (h1, Ok mergedKeys) ∧
    heap_ext h h1 ∧
    (a1 = [] ∧ h2 = h1 ∨
     a1 ≠ [] ∧ Union fuel opts h1 a0 a1 = (h2, Ok a0)) ∧
    heap_ext h1 h2 ∧
    default [] (Children h2 a0) = acs ∧
    add_new_children h2 u mergedKeys acs = (h', Ok tt) ∧
    heap_ext h h'.
Proof.
  intros HU. pose proof (Union_heap_ext _ _ _ _ _ _ _ HU) as Hext.
  rewrite Union_S in HU.
  destruct (check_roots h u (a0 :: a1)) eqn:Hchk.
  2,3: unfold Union_body in HU; by rewrite Hchk in HU.
  apply Union_body_phases in HU; [|done].
  destruct HU as (cs & h1 & o1 & [(Hcs & Hloop & H)|(_ & _ & ?)]); [|done].
  destruct o1 as [mk| | |]; try (by destruct H).
  destruct H as (h2 & o2 & Hcomb & H).
  destruct o2 as [ac| | |]; try (by destruct H).
  assert (heap_ext h h1) as Hext1.
  { eapply merge_children_ext; [|exact Hloop]. intros. by eapply Union_heap_ext. }
  assert (heap_ext h1 h2) as Hext2.
  { eapply combine_overlays_ext; [|exact Hcomb]. intros. by eapply Union_heap_ext. }
  assert (ac = a0 ∧ (a1 = [] ∧ h2 = h1 ∨
                     a1 ≠ [] ∧ Union fuel opts h1 a0 a1 = (h2, Ok a0)))
    as [-> Hc].
  { unfold combine_overlays in Hcomb. destruct a1 as [|a1 a2].
    - injection Hcomb as <- <-. split; [done|]. by left.
    - destruct (Union fuel opts h1 a0 (a1 :: a2)) as [h2' o2'] eqn:Hrec.
      destruct o2'; try done. injection Hcomb as <- <-.
      apply Union_Ok in Hrec as Heq. subst. split; [done|]. by right. }
  exists cs, h1, mk, h2, (default [] (Children h2 a0)).
  do 6 (split; [done|]). split; [|done].
  destruct (Children h2 a0) as [acs|] eqn:Hacs; simpl.
  - destruct H as (o3 & Hadd & H). destruct o3 as [[]| | |]; try done.
  - destruct H as [-> _]. done.
Qed.

Lemma elem_of_child_keys h cs ok :
  ok ∈ child_keys h cs ↔ ∃ q, q ∈ cs ∧ Key h q = ok.
Proof.
  unfold child_keys. change (map (Key h) cs) with (Key h <$> cs).
  rewrite list_elem_of_fmap. split; intros (q & ? & ?); eauto.
Qed.

(** At the roots: after a successful merge of directories, the control
    has a child under every key that a child of an overlay carries. *)
Lemma Union_root_covers fuel : ∀ opts h u adds h' r,
  Union fuel opts h u adds = (h', Ok r) →
  is_dir h u = true → Forall (λ a, is_dir h a = true) adds →
  ∀ a x, a ∈ adds → x ∈ children_at h a →
  Key h x ∈ child_keys h' (children_at h' u).
Proof.
  induction fuel as [|fuel IH]; intros opts h u adds h' r HU Hu Hadds a x Ha Hx.
  { done. }
  destruct adds as [|a0 a1]; [by apply elem_of_nil in Ha|].
  apply Union_S_Ok in HU
    as (cs & h1 & mk & h2 & acs & Hcs & Hloop & Hext1 & Hcomb & Hext2 &
        Hacs & Hfin & Hext).
  assert (heap_ext h h2) as Hext02
    by (eapply heap_ext_trans; [exact Hext1|exact Hext2]).
  apply Forall_cons in Hadds as [Ha0 Hadds].
  assert (∃ y, y ∈ acs ∧ Key h2 y = Key h x) as (y & Hy & Hky).
  { subst acs. fold (children_at h2 a0).
    apply elem_of_cons in Ha as [->|Ha].
    - exists x. split; [by eapply heap_ext_children_at|by apply heap_ext_Key].
    - destruct Hcomb as [[-> _]|[_ Hcomb]]; [by apply elem_of_nil in Ha|].
      apply (IH _ _ _ _ _ _ Hcomb) with (a := a) (x := x) in Ha.
      + apply elem_of_child_keys in Ha as (y & Hy & Hky).
        exists y. split; [done|]. by rewrite Hky, (heap_ext_Key h h1).
      + by rewrite (heap_ext_is_dir h h1).
      + eapply Forall_impl; [exact Hadds|]. simpl. intros q Hq.
        by rewrite (heap_ext_is_dir h h1).
      + by eapply heap_ext_children_at. }
  apply add_new_children_result in Hfin.
  rewrite (heap_ext_is_dir h h2), Hu in Hfin by done.
  destruct (heap_ext_Children _ _ _ _ Hext02 Hcs) as (extra & Hcs2 & _).
  rewrite Hcs2 in Hfin. simpl in Hfin.
  unfold children_at. rewrite Hfin. simpl.
  apply elem_of_child_keys.
  destruct (decide (Key h2 y ∈ Some <$> mk)) as [Hin|Hnin].
  - apply merge_children_keys in Hloop.
    2:{ intros. by eapply Union_heap_ext. }
    simpl in Hloop. rewrite Hloop, Hky in Hin.
    apply elem_of_child_keys in Hin as (z & Hz & Hkz).
    exists z. split; [|by rewrite (heap_ext_Key h h')].
    rewrite <- app_assoc. apply elem_of_app. by left.
  - exists y. split.
    + apply elem_of_app. right. by apply list_elem_of_filter.
    + by rewrite (heap_ext_Key h h'), <- (heap_ext_Key h h2).
Qed.

(** Below the roots: the same along every path of child keys on which the
    nodes are directories. *)
Theorem Union_covers opts ks : ∀ fuel h u adds h' r,
  Union fuel opts h u adds = (h', Ok r) →
  is_dir h u = true → Forall (λ a, is_dir h a = true) adds →
  dirs_along h ks →
  ∀ c c2 x,
    c ∈ at_path h [u] ks → c2 ∈ at_path h adds ks → x ∈ children_at h c2 →
    Key h x ∈ child_keys h' (children_at h' c).
Proof.
  induction ks as [|k ks IH];
    intros fuel h u adds h' r HU Hu Hadds Hdirs c c2 x Hc Hc2 Hx.
  { simpl in Hc, Hc2. apply list_elem_of_singleton in Hc as ->.
    by eapply Union_root_covers. }
  apply at_path_root in Hc2 as (a & Ha & Hc2).
  destruct fuel as [|fuel]; [done|].
  destruct adds as [|a0 a1]; [by apply elem_of_nil in Ha|].
  pose proof HU as HU'.
  apply Union_S_Ok in HU'
    as (cs & h1 & mk & h2 & acs & Hcs & Hloop & Hext1 & Hcomb & Hext2 &
        Hacs & Hfin & Hext).
  cbn [at_path] in Hc, Hc2.
  apply at_path_root in Hc as (cu & Hcu & Hc).
  apply at_path_root in Hc2 as (ca & Hca & Hc2).
  apply elem_of_keyed_children in Hcu as [Hkcu (u' & Hu' & Hcu)].
  apply list_elem_of_singleton in Hu' as ->.
  apply elem_of_keyed_children in Hca as [Hkca (a' & Ha' & Hca)].
  apply list_elem_of_singleton in Ha' as ->.
  assert (cu ∈ cs) as Hcucs.
  { unfold children_at in Hcu. by rewrite Hcs in Hcu. }
  edestruct (merge_children_nested (Union fuel) opts) with (c := cu)
    as (hi & k' & m & hi' & r' & Hexti & Hki & Hm & Hrec & Hexti');
    [|exact Hloop|exact Hcucs|].
  { intros. by eapply Union_heap_ext. }
  rewrite (heap_ext_Key h hi), Hkcu in Hki by done. injection Hki as <-.
  apply matchingChildrenFromAdd_eq in Hm.
  assert (heap_ext hi hi') as Hextii by (by eapply Union_heap_ext).
  assert (Key hi x ∈ child_keys hi' (children_at hi' c)) as Hin.
  { eapply (IH fuel hi cu m hi' r' Hrec) with (c2 := c2).
    - rewrite (heap_ext_is_dir h hi) by done.
      eapply Hdirs; [by eapply children_at_linked|by left|done].
    - apply Forall_forall. intros q Hq. subst m.
      apply elem_of_keyed_children in Hq as [Hkq (o & _ & Hq)].
      rewrite (heap_ext_is_dir h hi) by done.
      eapply (Hdirs q k); [|by left|by rewrite <- (heap_ext_Key h hi)].
      apply (heap_ext_linked h hi); [done|]. by eapply children_at_linked.
    - intros q k0 Hl Hk0 Hkq. rewrite (heap_ext_is_dir h hi) by done.
      eapply (Hdirs q k0); [|by right|by rewrite <- (heap_ext_Key h hi)].
      by apply (heap_ext_linked h hi).
    - by eapply at_path_mono.
    - eapply at_path_mono; [exact Hexti| |exact Hc2].
      intros q Hq. apply list_elem_of_singleton in Hq as ->. subst m.
      apply elem_of_keyed_children. split.
      + by rewrite (heap_ext_Key h hi).
      + exists a. split; [done|]. by eapply heap_ext_children_at.
    - by eapply heap_ext_children_at. }
  apply elem_of_child_keys in Hin as (z & Hz & Hkz).
  apply elem_of_child_keys. exists z. split.
  - eapply add_new_children_children_at; [exact Hfin|].
    eapply heap_ext_children_at; [exact Hext2|].
    by eapply heap_ext_children_at.
  - rewrite (heap_ext_Key h h') by done.
    rewrite <- (heap_ext_Key h hi x), <- Hkz by done.
    symmetry. apply heap_ext_Key.
    eapply heap_ext_trans; [exact Hexti|exact Hextii].
Qed.

(** The merge of the overlays among themselves is such a call, with the
    first overlay as its control. *)
Lemma Union_first_overlay_covers opts ks fuel h control o1 o2 rest h' r :
  Union fuel opts h control (o1 :: o2 :: rest) = (h', Ok r) →
  is_dir h o1 = true → Forall (λ a, is_dir h a = true) (o2 :: rest) →
  dirs_along h ks →
  ∀ c1 c2 x,
    c1 ∈ at_path h [o1] ks → c2 ∈ at_path h (o2 :: rest) ks →
    x ∈ children_at h c2 →
    Key h x ∈ child_keys h' (children_at h' c1).
Proof.
  intros HU Ho1 Hrest Hdirs c1 c2 x Hc1 Hc2 Hx.
  destruct fuel as [|fuel]; [done|].
  apply Union_S_Ok in HU
    as (cs & h1 & mk & h2 & acs & Hcs & Hloop & Hext1 & Hcomb & Hext2 &
        Hacs & Hfin & Hext).
  destruct Hcomb as [[? _]|[_ Hcomb]]; [done|].
  assert (Key h1 x ∈ child_keys h2 (children_at h2 c1)) as Hin.
  { eapply (Union_covers opts ks _ _ _ _ _ _ Hcomb) with (c2 := c2).
    - by rewrite (heap_ext_is_dir h h1).
    - eapply Forall_impl; [exact Hrest|]. simpl. intros q Hq.
      by rewrite (heap_ext_is_dir h h1).
    - intros q k Hl Hk Hkq. rewrite (heap_ext_is_dir h h1) by done.
      eapply (Hdirs q k); [|done|by rewrite <- (heap_ext_Key h h1)].
      by apply (heap_ext_linked h h1).
    - by eapply at_path_mono.
    - by eapply at_path_mono.
    - by eapply heap_ext_children_at. }
  apply elem_of_child_keys in Hin as (z & Hz & Hkz).
  apply elem_of_child_keys. exists z. split.
  - by eapply add_new_children_children_at.
  - rewrite (heap_ext_Key h h') by done.
    rewrite <- (heap_ext_Key h h1 x), <- Hkz by done.
    symmetry. apply heap_ext_Key.
    eapply heap_ext_trans; [exact Hext1|exact Hext2].
Qed.

(** * The specification, claim by claim *)

(** ** Degenerate and failing calls *)

(** C4.  With no overlay, [Union] succeeds and returns the control node
    itself; the store, hence the node, its children and their order, is
    unchanged.  This holds for every merge options value and every node. *)
Theorem C4_no_overlay_returns_control fuel opts (h : heap) (T : ptr) :
  Union (S fuel) opts h T [] = (h, Ok T).
Proof. reflexivity. Qed.

Lemma append_assoc (a b c : string) : (a +:+ b) +:+ c = a +:+ b +:+ c.
Proof.
  induction a as [|x a IH]; [done|].
  change (String x ((a +:+ b) +:+ c) = String x (a +:+ b +:+ c)). by f_equal.
Qed.

Lemma append_nil_r (a : string) : a +:+ "" = a.
Proof.
  induction a as [|x a IH]; [done|].
  change (String x (a +:+ "") = String x a). by f_equal.
Qed.

Lemma mismatch_message_mentions nk ck :
  mentions (Error (ErrMismatchedRoots nk ck)) nk ∧
  mentions (Error (ErrMismatchedRoots nk ck)) ck.
Proof.
  split.
  - by exists "mismatched roots: ", (" does not match " +:+ ck).
  - exists ("mismatched roots: " +:+ nk +:+ " does not match "), "".
    cbn [Error]. by rewrite append_nil_r, !append_assoc.
Qed.

Lemma check_roots_finds_mismatch (h : heap) control add :
  is_Some (h !! control) → Forall (λ n, is_Some (h !! n)) add →
  (∃ n, n ∈ add ∧ Key h n ≠ Key h control) →
  ∃ nk ck, check_roots h control add = RootsMismatch nk ck.
Proof.
  intros [nc Hc] Hall (n & Hn & Hne).
  induction Hall as [|a add [na Ha] Hall IH]; [by apply elem_of_nil in Hn|].
  simpl. unfold Key in *. rewrite Ha, Hc in *. simpl in *.
  destruct (String.eqb (Key_of na) (Key_of nc)) eqn:Heq; simpl; [|by eauto].
  apply String.eqb_eq in Heq. apply IH.
  apply elem_of_cons in Hn as [->|Hn]; [|done].
  rewrite Ha in Hne. simpl in Hne. congruence.
Qed.

(** C3.  If some overlay's root key differs from the control's root key,
    [Union] returns an error whose message mentions both mismatching keys,
    and the store is left exactly as it was: nothing was merged.  The roots
    are live (non-nil) nodes. *)
Theorem C3_root_mismatch_fails fuel opts (h : heap) (control : ptr)
    (add : list ptr) :
  is_Some (h !! control) →
  Forall (λ n, is_Some (h !! n)) add →
  (∃ n, n ∈ add ∧ Key h n ≠ Key h control) →
  ∃ nk ck,
    Union (S fuel) opts h control add = (h, Err (ErrMismatchedRoots nk ck)) ∧
    Key h control = Some ck ∧ nk ≠ ck ∧ (∃ n, n ∈ add ∧ Key h n = Some nk) ∧
    mentions (Error (ErrMismatchedRoots nk ck)) nk ∧
    mentions (Error (ErrMismatchedRoots nk ck)) ck.
Proof.
  intros Hc Hall Hex.
  destruct (check_roots_finds_mismatch h control add Hc Hall Hex)
    as (nk & ck & Hchk).
  exists nk, ck. pose proof (check_roots_mismatch _ _ _ _ _ Hchk) as (? & ? & ?).
  pose proof (mismatch_message_mentions nk ck) as [? ?].
  repeat split; try done.
  simpl. unfold Union_body. destruct add as [|a0 a1]; [done|]. by rewrite Hchk.
Qed.

Lemma C3_root_mismatch_fails_witness :
  ∃ nk ck,
    Union 1 (mkOpts ErrorOnCollision)
      [Dir (DirectoryNode.mk "a" [] None); Dir (DirectoryNode.mk "b" [] None)]
      0 [1]
    = ([Dir (DirectoryNode.mk "a" [] None); Dir (DirectoryNode.mk "b" [] None)],
       Err (ErrMismatchedRoots nk ck)) ∧
    Key [Dir (DirectoryNode.mk "a" [] None); Dir (DirectoryNode.mk "b" [] None)]
        0 = Some ck ∧ nk ≠ ck ∧
    (∃ n, n ∈ [1] ∧
          Key [Dir (DirectoryNode.mk "a" [] None);
               Dir (DirectoryNode.mk "b" [] None)] n = Some nk) ∧
    mentions (Error (ErrMismatchedRoots nk ck)) nk ∧
    mentions (Error (ErrMismatchedRoots nk ck)) ck.
Proof.
  apply (C3_root_mismatch_fails 0 (mkOpts ErrorOnCollision)
           [Dir (DirectoryNode.mk "a" [] None);
            Dir (DirectoryNode.mk "b" [] None)] 0 [1]).
  - by eexists.
  - repeat constructor. by eexists.
  - exists 1. split; [by left|]. vm_compute. discriminate.
Defined.

(** ** File content *)

Section ContentProperties.
Variable md5_Sum : list byte → list byte.
Variable filetype_Match : list byte → option string.
(** [md5.Sum] returns a [[16]byte] array. *)
Hypothesis md5_Size : ∀ src, length (md5_Sum src) = 16.

(** C8.  [SetContent] with a zero-length byte sequence succeeds and changes
    nothing, so that on a freshly constructed file node fingerprint and
    content type stay unset.  With a non-empty sequence the fingerprint
    becomes the (non-empty) digest of the bytes, the content type becomes
    the sniffed type when the bytes are recognised and is kept otherwise,
    and no other node is touched. *)
Theorem C8_SetContent_empty_is_noop :
  (∀ (h : heap) (p : ptr),
      SetContent md5_Sum filetype_Match h p [] = (h, Ok tt)) ∧
  (∀ (h : heap) name,
      let '(h1, p) := NewFileNode h name in
      DataHash h1 p = Some [] ∧ ContentType h1 p = Some "" ∧
      SetContent md5_Sum filetype_Match h1 p [] = (h1, Ok tt)) ∧
  (∀ (h : heap) (p : ptr) f src,
      h !! p = Some (File f) → src ≠ [] →
      ∃ h', SetContent md5_Sum filetype_Match h p src = (h', Ok tt) ∧
            DataHash h' p = Some (md5_Sum src) ∧ md5_Sum src ≠ [] ∧
            ContentType h' p =
              Some (match filetype_Match src with
                    | Some mime => mime
                    | None => FileNode.content_type f
                    end) ∧
            Key h' p = Key h p ∧ Action h' p = Action h p ∧
            ∀ q, q ≠ p → h' !! q = h !! q).
Proof.
  split; [done|]. split.
  - intros h name. cbn [NewFileNode]. unfold DataHash, ContentType.
    by rewrite lookup_app_r, Nat.sub_diag by done.
  - intros h p f src Hp Hsrc. unfold SetContent.
    destruct src as [|b src]; [done|]. simpl length. cbn [Nat.eqb].
    rewrite Hp. eexists. split; [done|].
    assert (p < length h)%nat by (by eapply lookup_lt_Some).
    unfold DataHash, ContentType, Key, Action.
    rewrite list_lookup_insert_eq, Hp by done. simpl.
    repeat split; try done.
    + intros Hnil. pose proof (md5_Size (b :: src)) as Hlen.
      rewrite Hnil in Hlen. done.
    + intros q Hq. by rewrite list_lookup_insert_ne.
Qed.

(** The [CollisionAction] accessor of a directory node and of a file node
    returns [DefaultOnCollision]; this remains so for every node of every
    store reached by public operations, so no two nodes ever differ in
    their declared collision action. *)
Theorem CollisionAction_is_default :
  (∀ d, CollisionAction_of (Dir d) = DefaultOnCollision) ∧
  (∀ f, CollisionAction_of (File f) = DefaultOnCollision) ∧
  (∀ (calls : list api_call) (h : heap) (p : ptr),
      is_Some (foldl (run_call md5_Sum filetype_Match) h calls !! p) →
      CollisionActionAt (foldl (run_call md5_Sum filetype_Match) h calls) p
      = Some DefaultOnCollision) ∧
  (∀ n1 n2, CollisionAction_of n1 = CollisionAction_of n2).
Proof.
  repeat split; try done.
  - intros calls h p [n Hn]. unfold CollisionActionAt. rewrite Hn.
    by destruct n.
  - by intros [] [].
Qed.
End ContentProperties.

Lemma C8_SetContent_empty_is_noop_witness :
  SetContent (λ _, digest_a) (λ _, None) colliding_files 2 []
  = (colliding_files, Ok tt) ∧
  ∃ h', SetContent (λ _, digest_a) (λ _, None) colliding_files 2 [x61]
        = (h', Ok tt) ∧
        DataHash h' 2 = Some digest_a ∧ digest_a ≠ [] ∧
        ContentType h' 2 = Some "".
Proof.
  destruct (C8_SetContent_empty_is_noop (λ _, digest_a) (λ _, None)
              (λ _, eq_refl)) as (Hempty & _ & Hset).
  split; [apply Hempty|].
  destruct (Hset colliding_files 2
              (FileNode.mk "x" FILEACTION_COPY digest_b "" None) [x61]
              eq_refl) as (h' & HS & HD & Hne & HC & _); [discriminate|].
  exists h'. by repeat split.
Defined.

Example CollisionAction_after_calls :
  CollisionActionAt
    (foldl (run_call (λ _, digest_a) (λ _, None)) []
       [CallNewFileNode "x"; CallSetContent 0 [x61]; CallNewDirectoryNode "root";
        CallAddChild 1 0]) 1
  = Some DefaultOnCollision.
Proof.
  apply (CollisionAction_is_default (λ _, digest_a) (λ _, None)).
  vm_compute. by eexists.
Qed.

(** ** Collisions *)

Lemma filter_none {A} (P : A → Prop) `{!∀ x, Decision (P x)} (l : list A) :
  Forall (λ x, ¬ P x) l → filter P l = [].
Proof.
  induction 1 as [|x l Hx Hl IH]; [done|]. by rewrite filter_cons_False.
Qed.

(** A directory never receives a child under a key it already has. *)
Lemma heap_ext_children_at_key h h' p cs c k :
  heap_ext h h' → Children h p = Some cs → c ∈ cs → Key h c = Some k →
  ∃ cs', Children h' p = Some cs' ∧ cs `prefix_of` cs' ∧
    filter (λ q, Key h' q = Some k) cs' = filter (λ q, Key h q = Some k) cs.
Proof.
  intros Hext Hcs Hc Hk.
  destruct (heap_ext_Children _ _ _ _ Hext Hcs) as (extra & Hcs' & Hex).
  exists (cs ++ extra). split; [done|]. split; [by exists extra|].
  rewrite (list_filter_iff _ (λ q, Key h q = Some k)).
  2:{ intros q. by rewrite (heap_ext_Key h h'). }
  rewrite filter_app, (filter_none _ extra), app_nil_r; [done|].
  eapply Forall_impl; [exact Hex|]. simpl. intros q [_ Hq] Hqk.
  apply Hq. rewrite Hqk, <- Hk. unfold child_keys.
  apply list_elem_of_fmap. eauto.
Qed.

(** C1 (the code fails the claim).  Control [root/{x}] and overlay
    [root/{x}] hold file nodes with the same key and two different,
    both-present fingerprints, and the merge options ask for
    [ErrorOnCollision]; yet [Union] returns the control node without any
    error and leaves the store as it was. *)
Theorem C1_content_collision_not_reported :
  Children colliding_files 1 = Some [0] ∧
  Children colliding_files 3 = Some [2] ∧
  NodeType colliding_files 0 = Some NODETYPE_FILE ∧
  NodeType colliding_files 2 = Some NODETYPE_FILE ∧
  Key colliding_files 0 = Some "x" ∧ Key colliding_files 2 = Some "x" ∧
  DataHash colliding_files 0 = Some digest_a ∧
  DataHash colliding_files 2 = Some digest_b ∧
  digest_a ≠ [] ∧ digest_b ≠ [] ∧ digest_a ≠ digest_b ∧
  ∀ fuel, Union (2 + fuel) (mkOpts ErrorOnCollision) colliding_files 1 [3]
          = (colliding_files, Ok 1).
Proof.
  repeat split; try done.
Qed.

(** C10 (the code fails the claim).  Every node declares
    [DefaultOnCollision], the action documented as chosen from the merge
    options, and no public operation changes that.  Yet the merge options
    do not govern what happens at a collision: on the two file nodes [x]
    with differing fingerprints [Union] returns the control node and leaves
    the store as it was whatever [DefaultCollisionAction] is,
    [ErrorOnCollision], [OverwriteOnCollision] and [YieldOnCollision]
    alike.  This is the defect met in C1. *)
Theorem C10_options_do_not_govern_collisions :
  (∀ n, CollisionAction_of n = DefaultOnCollision) ∧
  CollisionActionAt colliding_files 0 = Some DefaultOnCollision ∧
  CollisionActionAt colliding_files 2 = Some DefaultOnCollision ∧
  Key colliding_files 0 = Some "x" ∧ Key colliding_files 2 = Some "x" ∧
  DataHash colliding_files 0 = Some digest_a ∧
  DataHash colliding_files 2 = Some digest_b ∧
  digest_a ≠ digest_b ∧
  NoDup [ErrorOnCollision; OverwriteOnCollision; YieldOnCollision] ∧
  ∀ action fuel,
    Union (2 + fuel) (mkOpts action) colliding_files 1 [3]
    = (colliding_files, Ok 1).
Proof.
  split; [by intros []|]. repeat split; try done. compute_done.
Qed.

(** C2, counterexample.  The control holds the file node [y], the overlay
    the directory node [y] at the same level; [Union] returns the control
    node and no error. *)
Lemma C2_type_mismatch_counterexample :
  let '(h, control, overlay) := file_against_directory in
  Children h control = Some [0] ∧ Children h overlay = Some [2] ∧
  Key h 0 = Some "y" ∧ Key h 2 = Some "y" ∧
  NodeType h 0 = Some NODETYPE_FILE ∧
  NodeType h 2 = Some NODETYPE_DIRECTORY ∧
  Union 2 (mkOpts ErrorOnCollision) h control [overlay] = (h, Ok control).
Proof. vm_compute. repeat split. Qed.

(** C2, as amended.  [Union] compares no node types.  When a control child
    and an overlay child share a key but not a node type, a call that
    returns a tree returns the control node, whose children under that key
    are exactly those it had, every node keeping its type: the control-side
    node stays and the overlay's node is not linked beside it. *)
Theorem C2_type_mismatch_keeps_control fuel opts (h : heap)
    (control : ptr) (add : list ptr) h' r cs c o ocs oc k :
  Union fuel opts h control add = (h', Ok r) →
  Children h control = Some cs → c ∈ cs → Key h c = Some k →
  o ∈ add → Children h o = Some ocs → oc ∈ ocs → Key h oc = Some k →
  NodeType h c ≠ NodeType h oc →
  r = control ∧
  (∀ q, NodeType h' q = NodeType h q) ∧
  ∃ cs', Children h' control = Some cs' ∧ cs `prefix_of` cs' ∧
    filter (λ q, Key h' q = Some k) cs' = filter (λ q, Key h q = Some k) cs.
Proof.
  intros HU Hcs Hc Hk _ _ _ _ _.
  pose proof (Union_heap_ext _ _ _ _ _ _ _ HU) as Hext.
  split; [by eapply Union_Ok|].
  split; [intros q; by apply heap_ext_NodeType|].
  by eapply heap_ext_children_at_key.
Qed.

Lemma C2_type_mismatch_keeps_control_witness :
  (∀ q, NodeType file_against_directory.1.1 q
        = NodeType file_against_directory.1.1 q) ∧
  ∃ cs', Children file_against_directory.1.1 1 = Some cs' ∧
    [0] `prefix_of` cs' ∧
    filter (λ q, Key file_against_directory.1.1 q = Some "y") cs'
    = filter (λ q, Key file_against_directory.1.1 q = Some "y") [0].
Proof.
  eapply proj2.
  apply (C2_type_mismatch_keeps_control 2 (mkOpts ErrorOnCollision)
           file_against_directory.1.1 1 [3] file_against_directory.1.1
           1 [0] 0 3 [2] 2 "y"); try reflexivity.
  - by left.
  - by left.
  - by left.
  - vm_compute. discriminate.
Defined.

(** C5.  With [DefaultCollisionAction = OverwriteOnCollision], when control
    and overlay hold file nodes with the same key and differing
    fingerprints: the tree [Union] returns is the control; the control-side
    file node is still its child, with its fingerprint intact; and the
    children of the result under that key are exactly the control's
    original ones, so the overlay's node and content are not in the result.
    On a layered store whose roots have one depth and one key, [Union] does
    return that tree, with any sufficient fuel. *)
Theorem C5_overwrite_keeps_control_fingerprint opts (h : heap)
    (control : ptr) (add : list ptr) cs xc fc o ocs xo fo :
  DefaultCollisionAction opts = OverwriteOnCollision →
  Children h control = Some cs → xc ∈ cs → h !! xc = Some (File fc) →
  o ∈ add → Children h o = Some ocs → xo ∈ ocs → h !! xo = Some (File fo) →
  FileNode.name fo = FileNode.name fc →
  FileNode.datahash fo ≠ FileNode.datahash fc →
  (∀ fuel h' r,
      Union fuel opts h control add = (h', Ok r) →
      r = control ∧
      h' !! xc = Some (File fc) ∧
      DataHash h' xc = Some (FileNode.datahash fc) ∧
      ∃ cs', Children h' r = Some cs' ∧ xc ∈ cs' ∧
        filter (λ q, Key h' q = Some (FileNode.name fc)) cs'
        = filter (λ q, Key h q = Some (FileNode.name fc)) cs ∧
        (xo ∉ cs → xo ∉ cs')) ∧
  (∀ level,
      closed h → graded level h →
      Forall (λ a, (a < length h)%nat ∧ level a = level control) add →
      check_roots h control add = RootsMatch →
      ∃ fuel h', ∀ extra,
        Union (fuel + extra) opts h control add = (h', Ok control)).
Proof.
  intros _ Hcs Hxc Hfc _ _ _ Hfo Hname _. split.
  - intros fuel h' r HU.
    pose proof (Union_heap_ext _ _ _ _ _ _ _ HU) as Hext.
    apply Union_Ok in HU as ->.
    assert (h' !! xc = Some (File fc)) as Hfc' by (by eapply heap_ext_File).
    split; [done|]. split; [done|].
    split; [unfold DataHash; by rewrite Hfc'|].
    assert (Key h xc = Some (FileNode.name fc)) as Hk.
    { unfold Key. by rewrite Hfc. }
    destruct (heap_ext_children_at_key _ _ _ _ _ _ Hext Hcs Hxc Hk)
      as (cs' & Hcs' & [extra ->] & Hfilter).
    exists (cs ++ extra). split; [done|].
    split; [apply elem_of_app; by left|]. split; [done|].
    intros Hnin Hin.
    assert (xo ∈ filter (λ q, Key h' q = Some (FileNode.name fc)) (cs ++ extra))
      as Hin'.
    { apply list_elem_of_filter. split; [|done].
      rewrite (heap_ext_Key h h') by done. unfold Key. rewrite Hfo. simpl.
      by rewrite Hname. }
    rewrite Hfilter in Hin'. apply list_elem_of_filter in Hin' as [_ ?]. done.
  - intros level Hc Hg Hadd Hchk.
    apply (Union_succeeds level); try done.
    unfold Children in Hcs. destruct (h !! control) eqn:Hn; [|done].
    by eapply lookup_lt_Some.
Qed.

Lemma C5_overwrite_keeps_control_fingerprint_witness :
  (colliding_files !! 0
   = Some (File (FileNode.mk "x" FILEACTION_COPY digest_a "" None)) ∧
   DataHash colliding_files 0 = Some digest_a ∧
   ∃ cs', Children colliding_files 1 = Some cs' ∧ 0 ∈ cs' ∧
     filter (λ q, Key colliding_files q = Some "x") cs'
     = filter (λ q, Key colliding_files q = Some "x") [0] ∧
     (2 ∉ [0] → 2 ∉ cs')) ∧
  ∃ fuel h', ∀ extra,
    Union (fuel + extra) (mkOpts OverwriteOnCollision) colliding_files 1 [3]
    = (h', Ok 1).
Proof.
  destruct (C5_overwrite_keeps_control_fingerprint
              (mkOpts OverwriteOnCollision) colliding_files 1 [3]
              [0] 0 (FileNode.mk "x" FILEACTION_COPY digest_a "" None) 3 [2] 2
              (FileNode.mk "x" FILEACTION_COPY digest_b "" None))
    as [Hres Hruns]; try reflexivity.
  - by left.
  - by left.
  - by left.
  - vm_compute. discriminate.
  - split.
    + eapply proj2. apply (Hres 2 colliding_files 1). reflexivity.
    + apply (Hruns (λ p, match p with 0 | 2 => 1 | _ => 0 end)%nat).
      * by apply (layeredb_closed (λ p, match p with 0 | 2 => 1 | _ => 0 end)%nat).
      * by apply layeredb_graded.
      * repeat constructor.
      * reflexivity.
Defined.

(** ** Merging whole trees *)

(** C6.  For control [root/{dir1/{f1}, f_root}] and overlay
    [root/{dir1/{f2}, dir2/{f3}, f_add}], built as in
    [TestUnion_MergeTwoGraphs] with sibling keys that are pairwise distinct,
    [Union] succeeds (with any fuel from 3 on); the merged root has exactly
    the four children [dir1], [f_root], [dir2], [f_add]; the merged [dir1]
    has exactly the two children [f1], [f2]; and the walk of the result
    lists every path of either input, exactly once, and nothing else. *)
Theorem C6_two_graphs_merge opts dir1 dir2 f1 f2 f3 f_root f_add :
  NoDup [dir1; f_root; dir2; f_add] → f1 ≠ f2 →
  let '(h, control, overlay) := two_graphs dir1 dir2 f1 f2 f3 f_root f_add in
  ∃ h',
    (∀ fuel, Union (3 + fuel) opts h control [overlay] = (h', Ok control)) ∧
    (∃ d1 fr d2 fa,
        Children h' control = Some [d1; fr; d2; fa] ∧
        child_keys h' [d1; fr; d2; fa]
        = [Some dir1; Some f_root; Some dir2; Some f_add] ∧
        findChildByKey h' control dir1 = Some (Some d1) ∧
        ∃ c1 c2, Children h' d1 = Some [c1; c2] ∧
                 child_keys h' [c1; c2] = [Some f1; Some f2]) ∧
    paths 3 h' control
    = [ ["root"]; ["root"; dir1]; ["root"; dir1; f1]; ["root"; dir1; f2];
        ["root"; f_root]; ["root"; dir2]; ["root"; dir2; f3];
        ["root"; f_add] ] ∧
    NoDup (paths 3 h' control) ∧
    ∀ path, path ∈ paths 3 h control ++ paths 3 h overlay ↔
            path ∈ paths 3 h' control.
Proof.
  intros Hnd Hf.
  assert (dir1 ≠ f_root ∧ dir1 ≠ dir2 ∧ dir1 ≠ f_add ∧ f_root ≠ dir2 ∧
          f_root ≠ f_add ∧ dir2 ≠ f_add) as (? & ? & ? & ? & ? & ?).
  { rewrite !NoDup_cons, !not_elem_of_cons in Hnd. tauto. }
  assert (String.eqb f2 f1 = false) as E1 by (apply String.eqb_neq; congruence).
  assert (String.eqb dir2 dir1 = false) as E2 by (apply String.eqb_neq; congruence).
  assert (String.eqb f_add dir1 = false) as E3 by (apply String.eqb_neq; congruence).
  assert (String.eqb dir1 f_root = false) as E4 by (apply String.eqb_neq; congruence).
  assert (String.eqb dir2 f_root = false) as E5 by (apply String.eqb_neq; congruence).
  assert (String.eqb f_add f_root = false) as E6 by (apply String.eqb_neq; congruence).
  destruct (two_graphs dir1 dir2 f1 f2 f3 f_root f_add) as [[h control] overlay] eqn:E.
  cbv -[HasSuffix] in E. injection E as <- <- <-.
  eexists. split; [|split; [|split; [|split]]].
  - intros fuel. apply (Union_fuel_mono 3 fuel); [|done].
    cbv -[String.eqb HasSuffix].
    repeat (progress (rewrite ?String.eqb_refl, ?E1, ?E2, ?E3, ?E4, ?E5, ?E6);
            cbv -[String.eqb HasSuffix]).
    reflexivity.
  - exists 1, 2, 7, 8. split; [reflexivity|]. split; [reflexivity|].
    split.
    { cbv -[String.eqb]. by rewrite String.eqb_refl. }
    exists 0, 4. by split.
  - reflexivity.
  - match goal with |- NoDup ?l =>
      let l' := eval cbv -[HasSuffix] in l in change (NoDup l') end.
    rewrite !NoDup_cons, !not_elem_of_cons. repeat split; try congruence.
    all: try (apply not_elem_of_nil). apply NoDup_nil_2.
  - intros path.
    match goal with |- _ ∈ ?l1 ↔ _ ∈ ?l2 =>
      let l1' := eval cbv -[HasSuffix] in l1 in
      let l2' := eval cbv -[HasSuffix] in l2 in
      change (path ∈ l1' ↔ path ∈ l2') end.
    rewrite !elem_of_cons, !elem_of_nil. tauto.
Qed.

Lemma C6_two_graphs_merge_witness :
  let '(h, control, overlay) :=
    two_graphs "dir1" "dir2_add" "file1_control.txt" "file2_add.txt"
      "file3_add_in_dir2.txt" "file_control_root.txt" "file_add_root.txt" in
  ∃ h',
    (∀ fuel, Union (3 + fuel) (mkOpts ErrorOnCollision) h control [overlay]
             = (h', Ok control)) ∧
    (∃ d1 fr d2 fa,
        Children h' control = Some [d1; fr; d2; fa] ∧
        child_keys h' [d1; fr; d2; fa]
        = [Some "dir1"; Some "file_control_root.txt"; Some "dir2_add";
           Some "file_add_root.txt"] ∧
        findChildByKey h' control "dir1" = Some (Some d1) ∧
        ∃ c1 c2, Children h' d1 = Some [c1; c2] ∧
                 child_keys h' [c1; c2]
                 = [Some "file1_control.txt"; Some "file2_add.txt"]) ∧
    paths 3 h' control
    = [ ["root"]; ["root"; "dir1"]; ["root"; "dir1"; "file1_control.txt"];
        ["root"; "dir1"; "file2_add.txt"]; ["root"; "file_control_root.txt"];
        ["root"; "dir2_add"]; ["root"; "dir2_add"; "file3_add_in_dir2.txt"];
        ["root"; "file_add_root.txt"] ] ∧
    NoDup (paths 3 h' control) ∧
    ∀ path, path ∈ paths 3 h control ++ paths 3 h overlay ↔
            path ∈ paths 3 h' control.
Proof.
  apply (C6_two_graphs_merge (mkOpts ErrorOnCollision)
           "dir1" "dir2_add" "file1_control.txt" "file2_add.txt"
           "file3_add_in_dir2.txt" "file_control_root.txt"
           "file_add_root.txt").
  - compute_done.
  - discriminate.
Defined.

(** C7.  After a successful [Union] the control's original children are a
    prefix of its children, in their original order, and the new children
    follow them.  When the roots of the call are pairwise distinct nodes that
    are nobody's child, the new children are exactly [new_children]: those of
    the first overlay, in its child order, whose key the control did not
    have, then those of the later overlays, in argument order and in each
    overlay's child order; hence a subsequence of the overlays' child lists
    put end to end.  (A control that is a file node receives none.) *)
Theorem C7_children_order fuel opts (h : heap) (control : ptr)
    (add : list ptr) h' r cs :
  Union fuel opts h control add = (h', Ok r) →
  Children h control = Some cs →
  r = control ∧
  ∃ news,
    Children h' r = Some (cs ++ news) ∧
    (NoDup (control :: add) → Forall (λ p, ¬ linked h p) (control :: add) →
     news = (if is_dir h control
             then new_children h (child_keys h cs) add
             else []) ∧
     news `sublist_of` concat (children_at h <$> add)).
Proof.
  intros HU Hcs.
  pose proof (Union_heap_ext _ _ _ _ _ _ _ HU) as Hext.
  pose proof (Union_Ok _ _ _ _ _ _ _ HU) as ->.
  split; [done|].
  destruct (heap_ext_Children _ _ _ _ Hext Hcs) as (news & Hcs' & _).
  exists news. split; [done|]. intros Hnd Hul.
  destruct (Union_roots_merged _ _ _ _ _ _ _ HU Hnd Hul) as [Hm _].
  unfold merged_at in Hm. rewrite Hcs', Hcs in Hm. simpl in Hm.
  injection Hm as Hm. apply app_inv_head in Hm as ->.
  split; [done|]. destruct (is_dir h control); [|apply sublist_nil_l].
  apply new_children_sublist.
Qed.

Lemma C7_children_order_witness :
  ∃ news,
    Children (Union 4 (mkOpts ErrorOnCollision) three_graphs.1.1.1 3 [8; 12]).1
             3 = Some ([1; 2] ++ news) ∧
    news = new_children three_graphs.1.1.1
             (child_keys three_graphs.1.1.1 [1; 2]) [8; 12] ∧
    news `sublist_of` concat (children_at three_graphs.1.1.1 <$> [8; 12]).
Proof.
  destruct (C7_children_order 4 (mkOpts ErrorOnCollision) three_graphs.1.1.1 3
              [8; 12]
              (Union 4 (mkOpts ErrorOnCollision) three_graphs.1.1.1 3 [8; 12]).1
              3 [1; 2])
    as (_ & news & Hcs & Hnews).
  - vm_compute. reflexivity.
  - reflexivity.
  - exists news. split; [exact Hcs|].
    apply Hnews; [compute_done|by apply unlinked_check].
Defined.

(** C9.  In a successful call with at least two overlays the first
    overlay is modified in the store; nothing passed in loses a child, but
    the overlay trees are not what they were.
    - At its root (the roots of the call being pairwise distinct nodes that
      are nobody's child): its children become its old children followed by
      the children the later overlays contribute to it, so its node differs
      from what was passed in whenever that list is not empty.
    - Below its root, recursively: along every path of child keys that
      names directories, a node of the first overlay ends with a child under
      every key that a child of a later overlay's node at the same path
      carries, so it differs from what was passed in whenever it lacked such
      a key. *)
Theorem C9_first_overlay_is_mutated fuel opts (h : heap) (control o1 o2 : ptr)
    (rest : list ptr) h' r cs1 :
  Union fuel opts h control (o1 :: o2 :: rest) = (h', Ok r) →
  Children h o1 = Some cs1 →
  (NoDup (control :: o1 :: o2 :: rest) →
   Forall (λ p, ¬ linked h p) (control :: o1 :: o2 :: rest) →
   Children h' o1 =
     Some (cs1 ++ (if is_dir h o1
                   then new_children h (child_keys h cs1) (o2 :: rest)
                   else [])) ∧
   (is_dir h o1 = true →
    new_children h (child_keys h cs1) (o2 :: rest) ≠ [] →
    h' !! o1 ≠ h !! o1)) ∧
  (∀ d ds, Children h d = Some ds →
           ∃ extra, Children h' d = Some (ds ++ extra)) ∧
  (∀ ks c1 c2 x,
      is_dir h o1 = true → Forall (λ a, is_dir h a = true) (o2 :: rest) →
      dirs_along h ks →
      c1 ∈ at_path h [o1] ks → c2 ∈ at_path h (o2 :: rest) ks →
      x ∈ children_at h c2 →
      Key h x ∈ child_keys h' (children_at h' c1) ∧
      (Key h x ∉ child_keys h (children_at h c1) → h' !! c1 ≠ h !! c1)).
Proof.
  intros HU Hcs1.
  pose proof (Union_heap_ext _ _ _ _ _ _ _ HU) as Hext.
  split; [|split].
  - intros Hnd Hul.
    destruct (Union_roots_merged _ _ _ _ _ _ _ HU Hnd Hul) as (_ & Hm & _).
    unfold merged_at in Hm. rewrite Hcs1 in Hm. simpl in Hm.
    split; [done|].
    intros Hd Hne Heq. revert Hm. rewrite Hd. unfold Children.
    rewrite Heq. fold (Children h o1). rewrite Hcs1. intros [= Hm].
    rewrite <- (app_nil_r cs1) in Hm at 1. by apply app_inv_head in Hm.
  - intros d ds Hds.
    destruct (heap_ext_Children _ _ _ _ Hext Hds) as (extra & ? & _). eauto.
  - intros ks c1 c2 x Ho1 Hrest Hdirs Hc1 Hc2 Hx.
    pose proof (Union_first_overlay_covers _ _ _ _ _ _ _ _ _ _ HU Ho1 Hrest
                  Hdirs c1 c2 x Hc1 Hc2 Hx) as Hin.
    split; [done|]. intros Hnew Heq. apply Hnew.
    rewrite <- (heap_ext_child_keys h h') by done.
    unfold children_at, Children in *. by rewrite <- Heq.
Qed.

Lemma C9_first_overlay_is_mutated_witness :
  child_keys three_graphs.1.1.1 (children_at three_graphs.1.1.1 8)
  = [Some "common_dir"; Some "add1_only_dir"] ∧
  Children (Union 4 (mkOpts ErrorOnCollision) three_graphs.1.1.1 3 [8; 12]).1 8
  = Some [5; 7; 11] ∧
  Key three_graphs.1.1.1 11 = Some "add2_only_file.txt" ∧
  (Union 4 (mkOpts ErrorOnCollision) three_graphs.1.1.1 3 [8; 12]).1 !! 8
  ≠ three_graphs.1.1.1 !! 8 ∧
  at_path three_graphs.1.1.1 [8] ["common_dir"] = [5] ∧
  at_path three_graphs.1.1.1 [12] ["common_dir"] = [10] ∧
  Key three_graphs.1.1.1 9 = Some "add2_file4.txt" ∧
  Key three_graphs.1.1.1 9
  ∈ child_keys (Union 4 (mkOpts ErrorOnCollision) three_graphs.1.1.1 3 [8; 12]).1
      (children_at
         (Union 4 (mkOpts ErrorOnCollision) three_graphs.1.1.1 3 [8; 12]).1 5) ∧
  (Union 4 (mkOpts ErrorOnCollision) three_graphs.1.1.1 3 [8; 12]).1 !! 5
  ≠ three_graphs.1.1.1 !! 5.
Proof.
  destruct (C9_first_overlay_is_mutated 4 (mkOpts ErrorOnCollision)
              three_graphs.1.1.1 3 8 12 []
              (Union 4 (mkOpts ErrorOnCollision) three_graphs.1.1.1 3 [8; 12]).1
              3 [5; 7])
    as (Hroot & _ & Hdeep).
  - vm_compute. reflexivity.
  - reflexivity.
  - destruct Hroot as [Hcs Hne]; [compute_done|by apply unlinked_check|].
    destruct (Hdeep ["common_dir"] 5 10 9) as [Hin Hne5].
    + reflexivity.
    + by repeat constructor.
    + intros q k _ Hk Hq. apply list_elem_of_singleton in Hk as ->.
      do 13 (destruct q as [|q]; [by vm_compute in Hq |- *|]).
      by vm_compute in Hq.
    + by left.
    + by left.
    + by left.
    + split; [reflexivity|]. split; [exact Hcs|]. split; [reflexivity|].
      split; [apply Hne; [reflexivity|]; vm_compute; discriminate|].
      split; [reflexivity|]. split; [reflexivity|]. split; [reflexivity|].
      split; [exact Hin|]. apply Hne5. compute_done.
Defined.

(** The three trees of [TestUnion_MergeThreeGraphs]: the merge succeeds, and
    afterwards the first overlay holds the third tree's root-level file and
    its [common_dir] holds the third tree's file as well. *)
Example three_graphs_first_overlay_after_merge :
  let '(h, control, o1, o2) := three_graphs in
  ∃ h', Union 4 (mkOpts ErrorOnCollision) h control [o1; o2] = (h', Ok control) ∧
    child_keys h' (children_at h' control)
    = [Some "common_dir"; Some "control_only_file.txt";
       Some "add1_only_dir"; Some "add2_only_file.txt"] ∧
    child_keys h (children_at h o1)
    = [Some "common_dir"; Some "add1_only_dir"] ∧
    child_keys h' (children_at h' o1)
    = [Some "common_dir"; Some "add1_only_dir"; Some "add2_only_file.txt"] ∧
    findChildByKey h o1 "common_dir" = Some (Some 5) ∧
    child_keys h (children_at h 5) = [Some "add1_file2.txt"] ∧
    child_keys h' (children_at h' 5)
    = [Some "add1_file2.txt"; Some "add2_file4.txt"] ∧
    child_keys h' (children_at h' 1)
    = [Some "control_file1.txt"; Some "add1_file2.txt"; Some "add2_file4.txt"].
Proof. vm_compute. eexists. repeat split. Qed.
